(** * Segment block storage: the file-backed block of
      [internal/store/segment/block/file.go]

    A shallow embedding of [fileBlock] and its methods, followed by the
    properties of the block that the specification states.

    Conventions of the embedding.
    - Go's fixed-width integers are mathematical integers ([Z]) on which every
      arithmetic operation of the source is followed by the wrap-around of
      its type ([int32], [int64]; Go's [int] is taken to be 64 bits wide, as
      on the platforms the store is built for).
    - A method with receiver [b *fileBlock] is a function from the block to
      an outcome and the block afterwards: the state is not rolled back when
      an error is returned, exactly as in Go.
    - Run-time panics (index out of range, negative slice length) and the
      spin loops of the lifecycle methods are outcomes of their own.
    - The model is sequential: the append mutex is not represented, the
      pending-request counters are. *)

From Stdlib Require Import ZArith List Lia Bool String.
From Stdlib Require Import Init.Byte Strings.Byte.
Import ListNotations.
Local Open Scope Z_scope.

(** ** Machine integers *)

Module GoInt.

(** Two's-complement reduction of [z] to a signed [w]-bit integer. *)
Definition wrap (w : Z) (z : Z) : Z :=
  (z + 2 ^ (w - 1)) mod 2 ^ w - 2 ^ (w - 1).

Definition int32 (z : Z) : Z := wrap 32 z.
Definition int64 (z : Z) : Z := wrap 64 z.
(** Go's [int], 64 bits. *)
Definition int (z : Z) : Z := wrap 64 z.

Definition fits (w : Z) (z : Z) : Prop :=
  - 2 ^ (w - 1) <= z < 2 ^ (w - 1).

End GoInt.
Import GoInt.

(** Go's [len], as an [int]. *)
Definition len {A : Type} (l : list A) : Z := Z.of_nat (List.length l).

(** Go's slice indexing [l[i]]: [None] stands for the index-out-of-range
    panic. *)
Definition index {A : Type} (l : list A) (i : Z) : option A :=
  if i <? 0 then None else nth_error l (Z.to_nat i).

(** Assignment [l[i] = v] to an existing slot. *)
Fixpoint set_nth {A : Type} (l : list A) (i : nat) (v : A) : list A :=
  match l, i with
  | [], _ => []
  | _ :: r, O => v :: r
  | x :: r, S k => x :: set_nth r k v
  end.

(** ** Bytes and [encoding/binary] in big-endian order *)

Module Binary.

Definition Z_of_byte (x : byte) : Z := Z.of_N (Byte.to_N x).

Definition byte_of_Z (z : Z) : byte :=
  match Byte.of_N (Z.to_N (z mod 256)) with
  | Some x => x
  | None => x00
  end.

(** The [n] low-order bytes of [z], most significant first: what
    [binary.Write(buf, binary.BigEndian, v)] emits for a value of [n]
    bytes. *)
Fixpoint put (n : nat) (z : Z) : list byte :=
  match n with
  | O => []
  | S k => byte_of_Z (Z.shiftr z (8 * Z.of_nat k)) :: put k z
  end.

(** The unsigned value of a big-endian byte string. *)
Fixpoint get_acc (acc : Z) (bs : list byte) : Z :=
  match bs with
  | [] => acc
  | x :: r => get_acc (acc * 256 + Z_of_byte x) r
  end.

Definition get (bs : list byte) : Z := get_acc 0 bs.

End Binary.

(** ** Errors and outcomes *)

(** The error values the block can return. [EOF] and [ErrUnexpectedEOF] are
    those of package [io]; [ErrClosed] and [ErrNegativeOffset] those of
    package [os]; [ErrDevice] is any other failure of the file system;
    [ErrCodec] is a failure of [codec.Marshall]. *)
Inductive error : Set :=
| ErrNoEnoughCapacity
| ErrOffsetExceeded
| EOF
| ErrUnexpectedEOF
| ErrClosed
| ErrNegativeOffset
| ErrDevice (code : Z)
| ErrCodec (code : Z).

(** Ways a call does not return. *)
Inductive abort : Set :=
| IndexOutOfRange (i : Z)
| MakeSliceLen (n : Z)
| SpinsForever.

Inductive res (A : Type) : Type :=
| Ret (a : A)
| Fail (e : error)
| Abort (p : abort).
Arguments Ret {A} a.
Arguments Fail {A} e.
Arguments Abort {A} p.

(** ** The backing file ([*os.File]) *)

Module File.

Record t : Type := mk {
  contents : list byte;
  (** position of the next [Write] *)
  cursor : Z;
  closed : bool
}.

(** The bytes of [c] after [p] has been stored at offset [off]; a hole
    between the old end of the file and [off] reads as zeros. *)
Definition store (c : list byte) (off : nat) (p : list byte) : list byte :=
  firstn off c ++ repeat x00 (off - List.length c) ++ p
    ++ skipn (off + List.length p) c.

(** [f.ReadAt(make([]byte, n), off)]: fails unless all [n] bytes exist. *)
Definition ReadAt (f : t) (n : Z) (off : Z) : error + list byte :=
  if closed f then inl ErrClosed
  else if off <? 0 then inl ErrNegativeOffset
  else if n =? 0 then inr []
  else if off + n <=? len (contents f)
       then inr (firstn (Z.to_nat n) (skipn (Z.to_nat off) (contents f)))
       else inl EOF.

(** [f.WriteAt(p, off)]. *)
Definition WriteAt (f : t) (p : list byte) (off : Z) : t * option error :=
  if closed f then (f, Some ErrClosed)
  else if off <? 0 then (f, Some ErrNegativeOffset)
  else (mk (store (contents f) (Z.to_nat off) p) (cursor f) false, None).

(** A failure of the device during a [Write]: only the first [written]
    bytes reach the file, and the error [code] is reported. *)
Record fault : Set := mkFault { written : Z; code : Z }.

(** [f.Write(p)], at the cursor; [w] is what the device does. The result
    is the file afterwards, the count [n] and the error. *)
Definition Write (f : t) (w : option fault) (p : list byte)
  : t * Z * option error :=
  if closed f then (f, 0, Some ErrClosed)
  else
    match w with
    | None =>
        (mk (store (contents f) (Z.to_nat (cursor f)) p)
            (cursor f + len p) false,
         len p, None)
    | Some flt =>
        let n := Z.min (Z.max 0 (written flt)) (len p) in
        let q := firstn (Z.to_nat n) p in
        (mk (store (contents f) (Z.to_nat (cursor f)) q)
            (cursor f + n) false,
         n, Some (ErrDevice (code flt)))
    end.

(** [f.Close()]. *)
Definition Close (f : t) : t * option error :=
  if closed f then (f, Some ErrClosed)
  else (mk (contents f) (cursor f) true, None).

End File.

(** ** [bytes.Reader] and [binary.Read] *)

Module Reader.

(** A reader is the part of its buffer that has not been consumed. *)
Definition t : Type := list byte.

(** [binary.Read(reader, binary.BigEndian, &v)] for a [v] of [n] bytes
    ([io.ReadFull] underneath): the unsigned value and the reader
    afterwards. *)
Definition binary_Read (n : nat) (r : t) : error + (Z * t) :=
  match r with
  | [] => inl EOF
  | _ =>
      if (n <=? List.length r)%nat
      then inr (Binary.get (firstn n r), skipn n r)
      else inl ErrUnexpectedEOF
  end.

(** [reader.Read(payload)] for a zeroed [payload] of [n] bytes: an
    exhausted reader reports [io.EOF] whatever [n] is; otherwise the
    available bytes are copied to the front of [payload]. *)
Definition Read (n : nat) (r : t) : error + (list byte * t) :=
  match r with
  | [] => inl EOF
  | _ =>
      let got := firstn n r in
      inr (got ++ repeat x00 (n - List.length got), skipn n r)
  end.

End Reader.

(** ** The data of the block *)

Definition fileSegmentBlockHeaderCapacity : Z := 1024.
(** version + capacity + length + number *)
Definition v1FileSegmentBlockHeaderLength : Z := 4 + 8 + 4 + 8.
Definition v1IndexLength : Z := 12.

(** [codec.StoredEntry]. *)
Module StoredEntry.
Record t : Type := mk {
  Length : Z;
  Payload : list byte
}.
End StoredEntry.

Module blockIndex.
Record t : Type := mk {
  startOffset : Z;
  length : Z
}.
(** The zero value, as [make([]blockIndex, n)] fills a slice. *)
Definition zero : t := mk 0 0.
End blockIndex.

Module fileBlock.

Record t : Type := mk {
  version : Z;
  id : string;
  path : string;
  capacity : Z;
  length : Z;
  number : Z;
  writeOffset : Z;
  readOffset : Z;
  physicalFile : File.t;
  indexes : list blockIndex.t;
  readable : bool;
  appendable : bool;
  fullFlag : bool;
  uncompletedReadRequestCount : Z;
  uncompletedAppendRequestCount : Z
}.

(** Field assignments. *)
Definition set_version (v : Z) (b : t) : t :=
  mk v (id b) (path b) (capacity b) (length b) (number b) (writeOffset b)
     (readOffset b) (physicalFile b) (indexes b) (readable b)
     (appendable b) (fullFlag b) (uncompletedReadRequestCount b)
     (uncompletedAppendRequestCount b).
Definition set_capacity (v : Z) (b : t) : t :=
  mk (version b) (id b) (path b) v (length b) (number b) (writeOffset b)
     (readOffset b) (physicalFile b) (indexes b) (readable b)
     (appendable b) (fullFlag b) (uncompletedReadRequestCount b)
     (uncompletedAppendRequestCount b).
Definition set_length (v : Z) (b : t) : t :=
  mk (version b) (id b) (path b) (capacity b) v (number b) (writeOffset b)
     (readOffset b) (physicalFile b) (indexes b) (readable b)
     (appendable b) (fullFlag b) (uncompletedReadRequestCount b)
     (uncompletedAppendRequestCount b).
Definition set_number (v : Z) (b : t) : t :=
  mk (version b) (id b) (path b) (capacity b) (length b) v (writeOffset b)
     (readOffset b) (physicalFile b) (indexes b) (readable b)
     (appendable b) (fullFlag b) (uncompletedReadRequestCount b)
     (uncompletedAppendRequestCount b).
Definition set_writeOffset (v : Z) (b : t) : t :=
  mk (version b) (id b) (path b) (capacity b) (length b) (number b) v
     (readOffset b) (physicalFile b) (indexes b) (readable b)
     (appendable b) (fullFlag b) (uncompletedReadRequestCount b)
     (uncompletedAppendRequestCount b).
Definition set_physicalFile (v : File.t) (b : t) : t :=
  mk (version b) (id b) (path b) (capacity b) (length b) (number b)
     (writeOffset b) (readOffset b) v (indexes b) (readable b)
     (appendable b) (fullFlag b) (uncompletedReadRequestCount b)
     (uncompletedAppendRequestCount b).
Definition set_indexes (v : list blockIndex.t) (b : t) : t :=
  mk (version b) (id b) (path b) (capacity b) (length b) (number b)
     (writeOffset b) (readOffset b) (physicalFile b) v (readable b)
     (appendable b) (fullFlag b) (uncompletedReadRequestCount b)
     (uncompletedAppendRequestCount b).
Definition set_readable (v : bool) (b : t) : t :=
  mk (version b) (id b) (path b) (capacity b) (length b) (number b)
     (writeOffset b) (readOffset b) (physicalFile b) (indexes b) v
     (appendable b) (fullFlag b) (uncompletedReadRequestCount b)
     (uncompletedAppendRequestCount b).
Definition set_appendable (v : bool) (b : t) : t :=
  mk (version b) (id b) (path b) (capacity b) (length b) (number b)
     (writeOffset b) (readOffset b) (physicalFile b) (indexes b)
     (readable b) v (fullFlag b) (uncompletedReadRequestCount b)
     (uncompletedAppendRequestCount b).
Definition set_fullFlag (v : bool) (b : t) : t :=
  mk (version b) (id b) (path b) (capacity b) (length b) (number b)
     (writeOffset b) (readOffset b) (physicalFile b) (indexes b)
     (readable b) (appendable b) v (uncompletedReadRequestCount b)
     (uncompletedAppendRequestCount b).
Definition set_uncompletedReadRequestCount (v : Z) (b : t) : t :=
  mk (version b) (id b) (path b) (capacity b) (length b) (number b)
     (writeOffset b) (readOffset b) (physicalFile b) (indexes b)
     (readable b) (appendable b) (fullFlag b) v
     (uncompletedAppendRequestCount b).
Definition set_uncompletedAppendRequestCount (v : Z) (b : t) : t :=
  mk (version b) (id b) (path b) (capacity b) (length b) (number b)
     (writeOffset b) (readOffset b) (physicalFile b) (indexes b)
     (readable b) (appendable b) (fullFlag b)
     (uncompletedReadRequestCount b) v.

End fileBlock.

(** ** Methods as state transformers *)

(** A method of [*fileBlock] returning an [A] (and an error). *)
Definition M (A : Type) : Type := fileBlock.t -> res A * fileBlock.t.

Definition ret {A : Type} (a : A) : M A := fun b => (Ret a, b).
Definition fail {A : Type} (e : error) : M A := fun b => (Fail e, b).
Definition panic {A : Type} (p : abort) : M A := fun b => (Abort p, b).

Definition bind {A B : Type} (m : M A) (k : A -> M B) : M B :=
  fun b =>
    match m b with
    | (Ret a, b') => k a b'
    | (Fail e, b') => (Fail e, b')
    | (Abort p, b') => (Abort p, b')
    end.

Declare Scope block_scope.
Delimit Scope block_scope with block.
Notation "x <- m ;; k" := (bind m (fun x => k))
  (at level 61, m at next level, right associativity) : block_scope.
Notation "m ;; k" := (bind m (fun _ => k))
  (at level 61, right associativity) : block_scope.
Local Open Scope block_scope.

(** Reading the receiver, and assigning to it. *)
Definition get {A : Type} (proj : fileBlock.t -> A) : M A :=
  fun b => (Ret (proj b), b).
Definition modify (f : fileBlock.t -> fileBlock.t) : M unit :=
  fun b => (Ret tt, f b).

(** [if err != nil { return err }] after a call that yields [error + A]. *)
Definition try {A : Type} (r : error + A) : M A :=
  match r with
  | inl e => fail e
  | inr a => ret a
  end.

(** [return err] for an [err] that may be nil. *)
Definition return_err (e : option error) : M unit :=
  match e with
  | Some e => fail e
  | None => ret tt
  end.

(** [if err != nil { return err }] after a call that yields only an error. *)
Definition check (e : option error) : M unit := return_err e.

(** [l[i]] inside a method. *)
Definition at_index {A : Type} (l : list A) (i : Z) : M A :=
  match index l i with
  | Some a => ret a
  | None => panic (IndexOutOfRange i)
  end.

(** [make([]T, n)] panics on a negative length. *)
Definition make {A : Type} (zero : A) (n : Z) : M (list A) :=
  if n <? 0 then panic (MakeSliceLen n) else ret (repeat zero (Z.to_nat n)).

(** [atomic.AddInt32(&b.uncompletedAppendRequestCount, 1)] on entry and the
    deferred [atomic.AddInt32(..., -1)], which runs however the body ends. *)
Definition with_pending_append {A : Type} (body : M A) : M A :=
  fun b =>
    let b1 := fileBlock.set_uncompletedAppendRequestCount
                (int32 (fileBlock.uncompletedAppendRequestCount b + 1)) b in
    let '(r, b2) := body b1 in
    (r, fileBlock.set_uncompletedAppendRequestCount
          (int32 (fileBlock.uncompletedAppendRequestCount b2 + -1)) b2).

Definition with_pending_read {A : Type} (body : M A) : M A :=
  fun b =>
    let b1 := fileBlock.set_uncompletedReadRequestCount
                (int32 (fileBlock.uncompletedReadRequestCount b + 1)) b in
    let '(r, b2) := body b1 in
    (r, fileBlock.set_uncompletedReadRequestCount
          (int32 (fileBlock.uncompletedReadRequestCount b2 + -1)) b2).

(** *** Predicates and capacity *)

Definition IsEmpty (b : fileBlock.t) : bool :=
  fileBlock.length b =? fileSegmentBlockHeaderCapacity.

Definition IsFull (b : fileBlock.t) : bool := fileBlock.fullFlag b.

Definition IsAppendable (b : fileBlock.t) : bool :=
  fileBlock.appendable b && negb (IsFull b).

Definition IsReadable (b : fileBlock.t) : bool :=
  fileBlock.appendable b && negb (IsEmpty b).

Definition Path (b : fileBlock.t) : string := fileBlock.path b.
Definition SegmentBlockID (b : fileBlock.t) : string := fileBlock.id b.

(** [int(b.capacity-b.length-int64(b.number*v1IndexLength)-sizeNeedServed)
     - fileSegmentBlockHeaderCapacity]; the product is an [int32]. *)
Definition remain (b : fileBlock.t) (sizeNeedServed : Z) : Z :=
  int
    (int
       (int64
          (int64
             (int64 (fileBlock.capacity b - fileBlock.length b)
              - int64 (int32 (fileBlock.number b * v1IndexLength)))
           - sizeNeedServed))
     - fileSegmentBlockHeaderCapacity).

(** *** Append *)

Section Append.

(** [codec.Marshall] belongs to another package: the block is
    parameterised by it. *)
Variable Marshall : StoredEntry.t -> error + list byte.

(** The state of the loop over [entities]: [buf], [length], [idxes]. *)
Definition batch_state : Type := (list byte * Z * list blockIndex.t)%type.

(** The loop [for idx := range entities] of [Append], from an iteration
    that starts in state [st]; [writeOffset] is [b.writeOffset], which the
    loop only reads. *)
Fixpoint marshal_entities (writeOffset : Z) (entities : list StoredEntry.t)
         (st : batch_state) : error + batch_state :=
  match entities with
  | [] => inr st
  | e :: rest =>
      let '(buf, length, idxes) := st in
      match Marshall e with
      | inl err => inl err
      | inr data =>
          let bi_startOffset := int64 (writeOffset + int64 length) in
          let buf := buf ++ data in
          let length := int (length + len data) in
          let bi := blockIndex.mk bi_startOffset (int32 (len data)) in
          marshal_entities writeOffset rest (buf, length, idxes ++ [bi])
      end
  end.

(** [w] is the behaviour of the device during the one [Write] of the
    call. *)
Definition Append (w : option File.fault) (entities : list StoredEntry.t)
  : M unit :=
  with_pending_append
    (match entities with
     | [] => ret tt
     | _ =>
         writeOffset <- get fileBlock.writeOffset ;;
         st <- try (marshal_entities writeOffset entities ([], 0, [])) ;;
         let '(buf, length, idxes) := st in
         b <- get (fun b => b) ;;
         if length >? remain b (int64 (int (length
                                             + int (v1IndexLength * len idxes))))
         then fail ErrNoEnoughCapacity
         else
           let '(f, n, err) := File.Write (fileBlock.physicalFile b) w buf in
           modify (fileBlock.set_physicalFile f) ;;
           modify (fun b =>
                     fileBlock.set_indexes (fileBlock.indexes b ++ idxes) b) ;;
           modify (fun b =>
                     fileBlock.set_number
                       (int32 (fileBlock.number b + int32 (len idxes))) b) ;;
           modify (fun b =>
                     fileBlock.set_writeOffset
                       (int64 (fileBlock.writeOffset b + int64 n)) b) ;;
           return_err err
     end).

End Append.

(** *** Read *)

Definition calculateRange (start num : Z) : M (Z * Z) :=
  indexes <- get fileBlock.indexes ;;
  number <- get fileBlock.number ;;
  if start >=? len indexes then fail ErrOffsetExceeded
  else
    first <- at_index indexes start ;;
    let startPos := blockIndex.startOffset first in
    let offset := int (int (start + num) - 1) in
    if number <? int32 (int (offset + 1))
    then
      last <- at_index indexes (int32 (number - 1)) ;;
      ret (startPos,
           int64 (blockIndex.startOffset last + int64 (blockIndex.length last)))
    else
      last <- at_index indexes offset ;;
      ret (startPos,
           int64 (blockIndex.startOffset last + int64 (blockIndex.length last))).

(** The loop [for err == nil] of [Read]: the entries collected and the error
    that ended the loop. Every iteration that goes on consumes the four
    bytes of a length; [fuel] bounds the number of iterations, and [None] is
    returned when it does not suffice. *)
Fixpoint deframe (fuel : nat) (reader : Reader.t) (ses : list StoredEntry.t)
  : option (abort + list StoredEntry.t * error) :=
  match fuel with
  | O => None
  | S fuel =>
      match Reader.binary_Read 4 reader with
      | inl err => Some (inr (ses, err))
      | inr (u, reader) =>
          let size := int32 u in
          if int size <? 0 then Some (inl (MakeSliceLen (int size)))
          else
            match Reader.Read (Z.to_nat (int size)) reader with
            | inl err => Some (inr (ses, err))
            | inr (payload, reader) =>
                deframe fuel reader (ses ++ [StoredEntry.mk size payload])
            end
      end
  end.

(** Enough iterations for a buffer [data]. *)
Definition deframe_fuel (data : list byte) : nat := S (List.length data).

Definition Read (entityStartOffset number : Z) : M (list StoredEntry.t) :=
  with_pending_read
    (range <- calculateRange entityStartOffset number ;;
     let '(from, to) := range in
     (* data := make([]byte, to-from) *)
     let size := int64 (to - from) in
     if size <? 0 then panic (MakeSliceLen size)
     else
       f <- get fileBlock.physicalFile ;;
       data <- try (File.ReadAt f size from) ;;
       match deframe (deframe_fuel data) data [] with
       | None => panic SpinsForever
       | Some (inl p) => panic p
       | Some (inr (ses, err)) =>
           match err with
           | EOF => ret ses
           | _ => fail err
           end
       end).

(** *** Header and index, persisted and loaded *)

Definition persistHeader : M unit :=
  b <- get (fun b => b) ;;
  let buf :=
    Binary.put 4 (fileBlock.version b)
    ++ Binary.put 8 (fileBlock.capacity b)
    ++ Binary.put 8 (fileBlock.length b)
    ++ Binary.put 4 (fileBlock.number b) in
  let '(f, err) := File.WriteAt (fileBlock.physicalFile b) buf 0 in
  modify (fileBlock.set_physicalFile f) ;;
  check err.

Definition loadHeader : M unit :=
  f <- get fileBlock.physicalFile ;;
  hd <- try (File.ReadAt f v1FileSegmentBlockHeaderLength 0) ;;
  let reader : Reader.t := hd in
  r <- try (Reader.binary_Read 4 reader) ;;
  let '(v, reader) := r in
  modify (fileBlock.set_version (int32 v)) ;;
  r <- try (Reader.binary_Read 8 reader) ;;
  let '(v, reader) := r in
  modify (fileBlock.set_capacity (int64 v)) ;;
  r <- try (Reader.binary_Read 8 reader) ;;
  let '(v, reader) := r in
  modify (fileBlock.set_length (int64 v)) ;;
  r <- try (Reader.binary_Read 4 reader) ;;
  let '(v, reader) := r in
  modify (fileBlock.set_number (int32 v)) ;;
  modify (fun b =>
            fileBlock.set_writeOffset
              (int64 (v1FileSegmentBlockHeaderLength + fileBlock.length b)) b).

Definition persistIndex : M unit :=
  b <- get (fun b => b) ;;
  if negb (IsFull b) then ret tt
  else
    let buf :=
      flat_map (fun bi => Binary.put 8 (blockIndex.startOffset bi)
                            ++ Binary.put 4 (blockIndex.length bi))
               (fileBlock.indexes b) in
    let '(f, err) :=
      File.WriteAt (fileBlock.physicalFile b) buf (fileBlock.writeOffset b) in
    modify (fileBlock.set_physicalFile f) ;;
    check err.

(** The loop [for idx := range b.indexes] of the full-block path, with
    [todo] slots left to fill from slot [idx]. *)
Fixpoint read_index (todo : nat) (idx : nat) (reader : Reader.t) : M unit :=
  match todo with
  | O => ret tt
  | S todo =>
      r <- try (Reader.binary_Read 8 reader) ;;
      let '(v, reader) := r in
      modify (fun b =>
                let bi := nth idx (fileBlock.indexes b) blockIndex.zero in
                fileBlock.set_indexes
                  (set_nth (fileBlock.indexes b) idx
                           (blockIndex.mk (int64 v) (blockIndex.length bi))) b) ;;
      r <- try (Reader.binary_Read 4 reader) ;;
      let '(v, reader) := r in
      modify (fun b =>
                let bi := nth idx (fileBlock.indexes b) blockIndex.zero in
                fileBlock.set_indexes
                  (set_nth (fileBlock.indexes b) idx
                           (blockIndex.mk (blockIndex.startOffset bi) (int32 v)))
                  b) ;;
      read_index todo (S idx) reader
  end.

(** The loop [for idx := 0; idx < int(b.number); idx++] of the rebuild path,
    with [todo] iterations left, at slot [idx] and file offset [off]. *)
Fixpoint rebuild_index (todo : nat) (idx : nat) (off : Z) : M unit :=
  match todo with
  | O => ret tt
  | S todo =>
      f <- get fileBlock.physicalFile ;;
      ld <- try (File.ReadAt f 4 off) ;;
      r <- try (Reader.binary_Read 4 ld) ;;
      let '(v, _) := r in
      let entityLen := int32 v in
      modify (fun b =>
                fileBlock.set_indexes
                  (set_nth (fileBlock.indexes b) idx
                           (blockIndex.mk off entityLen)) b) ;;
      rebuild_index todo (S idx) (int64 (off + int64 (4 + int64 entityLen)))
  end.

Definition loadIndex : M unit :=
  number <- get fileBlock.number ;;
  indexes <- make blockIndex.zero number ;;
  modify (fileBlock.set_indexes indexes) ;;
  b <- get (fun b => b) ;;
  if IsFull b then
    (* read index directly *)
    idxData_len <- ret (int32 (number * v1IndexLength)) ;;
    (if idxData_len <? 0 then panic (MakeSliceLen idxData_len) else ret tt) ;;
    idxData <- try (File.ReadAt (fileBlock.physicalFile b) idxData_len
                                (fileBlock.writeOffset b)) ;;
    read_index (List.length indexes) 0 idxData
  else
    (* rebuild index *)
    rebuild_index (Z.to_nat (int number)) 0 fileSegmentBlockHeaderCapacity.

Definition validate : M unit := ret tt.

Definition Initialize : M unit :=
  loadHeader ;; loadIndex ;; validate.

(** *** Lifecycle *)

(** [for b.uncompletedAppendRequestCount != 0 { time.Sleep(...) }]: with no
    other thread to change the counter, the loop ends at once or never. *)
Definition wait_appends : M unit :=
  n <- get fileBlock.uncompletedAppendRequestCount ;;
  if n =? 0 then ret tt else panic SpinsForever.

Definition wait_reads : M unit :=
  n <- get fileBlock.uncompletedReadRequestCount ;;
  if n =? 0 then ret tt else panic SpinsForever.

Definition CloseWrite : M unit :=
  modify (fileBlock.set_appendable false) ;;
  wait_appends ;;
  persistHeader ;;
  persistIndex.

Definition file_Close : M unit :=
  f <- get fileBlock.physicalFile ;;
  let '(f, err) := File.Close f in
  modify (fileBlock.set_physicalFile f) ;;
  check err.

Definition CloseRead : M unit :=
  file_Close ;;
  modify (fileBlock.set_readable false) ;;
  wait_reads.

Definition Close : M unit := file_Close.

(** ** Collaborators outside this file *)

(** Modelled from the spec: [codec.Marshall], of package
    [internal/store/segment/codec]. A framed entry is a 4-byte big-endian
    length prefix followed by that many payload bytes; framing does not
    fail. *)
Definition codec_Marshall (e : StoredEntry.t) : error + list byte :=
  inr (Binary.put 4 (len (StoredEntry.Payload e)) ++ StoredEntry.Payload e).

(** An entry carrying [payload]. *)
Definition entry (payload : list byte) : StoredEntry.t :=
  StoredEntry.mk (len payload) payload.

(** Modelled from the spec: the file the external allocator creates, of exact
    size [capacity], with an initial header ([length = 0], [number = 0]) and
    zeros after it. The position of the next [Write] is the start of the
    payload region. *)
Definition created_file (capacity : Z) : File.t :=
  let header := Binary.put 4 1 ++ Binary.put 8 capacity
                ++ Binary.put 8 0 ++ Binary.put 4 0 in
  File.mk (header ++ repeat x00 (Z.to_nat capacity - List.length header))
          fileSegmentBlockHeaderCapacity false.

(** Modelled from the spec: the block object constructed around a file (the
    constructors of the package are not in this file). It is appendable and
    readable, [full] is as given, nothing is pending, and the write position
    is the start of the payload region. *)
Definition block_on (f : File.t) (capacity : Z) (full : bool) : fileBlock.t :=
  fileBlock.mk 1 "block"%string "/data/block"%string capacity 0 0
               fileSegmentBlockHeaderCapacity fileSegmentBlockHeaderCapacity
               f [] true true full 0 0.

(** A fresh block: created, not yet written to. *)
Definition fresh_block (capacity : Z) : fileBlock.t :=
  block_on (created_file capacity) capacity false.

(** Reopening the file of [b]: a new block object on the same bytes, then
    [Initialize]. [full] selects the path of [loadIndex]. *)
Definition reopen (full : bool) (b : fileBlock.t) : res unit * fileBlock.t :=
  let f := fileBlock.physicalFile b in
  Initialize
    (block_on (File.mk (File.contents f) fileSegmentBlockHeaderCapacity false)
              (fileBlock.capacity b) full).

(** ** Properties of the index *)

(** The index as pairs, for display. *)
Definition index_pairs (b : fileBlock.t) : list (Z * Z) :=
  map (fun bi => (blockIndex.startOffset bi, blockIndex.length bi))
      (fileBlock.indexes b).

(** The sum of the lengths of the records [idx]. *)
Definition total_length (idx : list blockIndex.t) : Z :=
  fold_right (fun bi acc => blockIndex.length bi + acc) 0 idx.

(** The packing invariant: record [i] starts where the records before it
    end, the first one at the end of the header region. *)
Definition packed (b : fileBlock.t) : Prop :=
  forall i bi,
    (i < Z.to_nat (fileBlock.number b))%nat ->
    nth_error (fileBlock.indexes b) i = Some bi ->
    blockIndex.startOffset bi
    = fileSegmentBlockHeaderCapacity
      + total_length (firstn i (fileBlock.indexes b)).

(** The index records [Append] builds for the serialised entries [data],
    when the running [length] of its loop is [length]. *)
Fixpoint frame_indexes (writeOffset length : Z) (data : list (list byte))
  : list blockIndex.t :=
  match data with
  | [] => []
  | d :: rest =>
      blockIndex.mk (int64 (writeOffset + int64 length)) (int32 (len d))
      :: frame_indexes writeOffset (int (length + len d)) rest
  end.

(** The receiver of [Append] when the call returns on a non-empty batch,
    in the three ways it can. *)
Definition pending_done (b : fileBlock.t) : fileBlock.t :=
  fileBlock.set_uncompletedAppendRequestCount
    (int32 (int32 (fileBlock.uncompletedAppendRequestCount b + 1) + -1)) b.

Definition appended (f : File.t) (n : Z) (idxes : list blockIndex.t)
           (b : fileBlock.t) : fileBlock.t :=
  pending_done
    (fileBlock.set_writeOffset
       (int64 (fileBlock.writeOffset b + int64 n))
       (fileBlock.set_number
          (int32 (fileBlock.number b + int32 (len idxes)))
          (fileBlock.set_indexes (fileBlock.indexes b ++ idxes)
             (fileBlock.set_physicalFile f b)))).

(** *** Blocks that hold a sequence of entries *)

(** The framed form of a payload, as [codec_Marshall] produces it. *)
Definition frame (p : list byte) : list byte := Binary.put 4 (len p) ++ p.

(** The bytes the frames of the payloads [ps] occupy. *)
Fixpoint framed_size (ps : list (list byte)) : Z :=
  match ps with
  | [] => 0
  | p :: rest => 4 + len p + framed_size rest
  end.

(** The index of frames packed from offset [off] on. *)
Fixpoint packed_from (off : Z) (ps : list (list byte)) : list blockIndex.t :=
  match ps with
  | [] => []
  | p :: rest =>
      blockIndex.mk off (4 + len p) :: packed_from (off + (4 + len p)) rest
  end.

(** The index the rebuild path of [loadIndex] computes for frames packed
    from offset [off] on. *)
Fixpoint rebuilt_from (off : Z) (ps : list (list byte)) : list blockIndex.t :=
  match ps with
  | [] => []
  | p :: rest =>
      blockIndex.mk off (len p) :: rebuilt_from (off + (4 + len p)) rest
  end.

(** [holds b base ps]: the block [b] stores the entries with payloads [ps].
    Their frames lie in the file from offset [base] on, one after the other;
    the index describes them; the write position and the cursor of the file
    are at their end. *)
Record holds (b : fileBlock.t) (base : Z) (ps : list (list byte)) : Prop := {
  holds_open : File.closed (fileBlock.physicalFile b) = false;
  holds_base : 0 <= base;
  holds_end : base + framed_size ps < 2 ^ 62;
  holds_small : Forall (fun p => len p < 2 ^ 31 - 4) ps;
  holds_count : len ps < 2 ^ 31;
  holds_number : fileBlock.number b = len ps;
  holds_writeOffset : fileBlock.writeOffset b = base + framed_size ps;
  holds_cursor : File.cursor (fileBlock.physicalFile b) = base + framed_size ps;
  holds_indexes : fileBlock.indexes b = packed_from base ps;
  holds_bytes :
    firstn (Z.to_nat (framed_size ps))
           (skipn (Z.to_nat base) (File.contents (fileBlock.physicalFile b)))
    = List.concat (map frame ps)
}.

(** What the loop of [Read] delivers of the payloads of a range: all of
    them, but for a last one that is empty. *)
Fixpoint delivered (ps : list (list byte)) : list (list byte) :=
  match ps with
  | [] => []
  | p :: rest =>
      match rest with
      | [] => match p with [] => [] | _ => [p] end
      | _ => p :: delivered rest
      end
  end.

(** The payloads of the ordinals from [start] on, at most [count] of them. *)
Definition range_of (start count : Z) (ps : list (list byte))
  : list (list byte) :=
  firstn (Z.to_nat count) (skipn (Z.to_nat start) ps).

(** The claim that a sealed block refuses appends: whenever [CloseWrite]
    has returned, a later [Append] of a non-empty batch does not succeed. *)
Definition sealed_block_rejects_appends : Prop :=
  forall Marshall w entities b b1,
    entities <> [] ->
    CloseWrite b = (Ret tt, b1) ->
    fst (Append Marshall w entities b1) <> Ret tt.

(** Sample payloads: "abc" and "hello". *)
Definition abc : list byte := [x61; x62; x63].
Definition hello : list byte := [x68; x65; x6c; x6c; x6f].

(** Scenario S3: a fresh block of 4096 bytes after
    [Append([E1(len=3), E2(len=5)])]. *)
Definition block_S3 : fileBlock.t :=
  snd (Append codec_Marshall None [entry abc; entry hello] (fresh_block 4096)).

(** Scenario S5: [block_S3] marked full, after [CloseWrite]. *)
Definition sealed_S3 : fileBlock.t :=
  snd (CloseWrite (fileBlock.set_fullFlag true block_S3)).

(** A fresh block after the append of one entry with an empty payload. *)
Definition block_empty_entry : fileBlock.t :=
  snd (Append codec_Marshall None [entry []] (fresh_block 4096)).

(** A block file whose header declares 16 payload bytes and 2 entries. *)
Definition header_16_2 : File.t :=
  File.mk (Binary.put 4 1 ++ Binary.put 8 4096 ++ Binary.put 8 16
             ++ Binary.put 4 2)
          fileSegmentBlockHeaderCapacity false.

(** * Properties *)

(** ** Machine integers *)

Lemma wrap_fits (w z : Z) : 0 < w -> fits w z -> wrap w z = z.
Proof.
  intros Hw [Hlo Hhi]. unfold wrap.
  assert (Hp : 2 ^ w = 2 * 2 ^ (w - 1)).
  { replace w with (1 + (w - 1)) at 1 by lia.
    rewrite Z.pow_add_r by lia. reflexivity. }
  rewrite Z.mod_small; lia.
Qed.

Lemma int32_fits (z : Z) : - 2 ^ 31 <= z < 2 ^ 31 -> int32 z = z.
Proof. intros H. apply wrap_fits; [lia | exact H]. Qed.

Lemma int64_fits (z : Z) : - 2 ^ 63 <= z < 2 ^ 63 -> int64 z = z.
Proof. intros H. apply wrap_fits; [lia | exact H]. Qed.

Lemma int_fits (z : Z) : - 2 ^ 63 <= z < 2 ^ 63 -> int z = z.
Proof. intros H. apply wrap_fits; [lia | exact H]. Qed.

Lemma wrap_range (w z : Z) : 0 < w -> fits w (wrap w z).
Proof.
  intros Hw. unfold fits, wrap.
  assert (Hp : 2 ^ w = 2 * 2 ^ (w - 1)).
  { replace w with (1 + (w - 1)) at 1 by lia.
    rewrite Z.pow_add_r by lia. reflexivity. }
  assert (0 < 2 ^ (w - 1)) by (apply Z.pow_pos_nonneg; lia).
  pose proof (Z.mod_pos_bound (z + 2 ^ (w - 1)) (2 ^ w) ltac:(lia)). lia.
Qed.

Lemma len_nonneg {A : Type} (l : list A) : 0 <= len l.
Proof. unfold len. lia. Qed.

Lemma len_app {A : Type} (l1 l2 : list A) : len (l1 ++ l2) = len l1 + len l2.
Proof. unfold len. rewrite length_app. lia. Qed.

(** ** IsEmpty *)

Lemma IsEmpty_iff (b : fileBlock.t) :
  IsEmpty b = true <-> fileBlock.length b = 1024.
Proof. unfold IsEmpty, fileSegmentBlockHeaderCapacity. apply Z.eqb_eq. Qed.

(** C9. [IsEmpty] does not test [length == 0]: it compares [length] with the
    size of the header region. A fresh block, whose [length] is 0, is reported
    as not empty, and a block whose [length] is 1024 as empty. *)
Theorem IsEmpty_fresh_block_false :
  fileBlock.length (fresh_block 4096) = 0
  /\ IsEmpty (fresh_block 4096) = false
  /\ IsEmpty (fileBlock.set_length 1024 (fresh_block 4096)) = true.
Proof. repeat split. Qed.

(** ** loadHeader *)

Lemma loadHeader_writeOffset (b b' : fileBlock.t) :
  loadHeader b = (Ret tt, b') ->
  fileBlock.writeOffset b' = int64 (24 + fileBlock.length b').
Proof.
  unfold loadHeader, bind, get, try, modify, ret, fail.
  destruct (File.ReadAt _ _ _) as [e | hd]; [discriminate |].
  destruct (Reader.binary_Read 4 hd) as [e | [v1 r1]]; [discriminate |].
  destruct (Reader.binary_Read 8 r1) as [e | [v2 r2]]; [discriminate |].
  destruct (Reader.binary_Read 8 r2) as [e | [v3 r3]]; [discriminate |].
  destruct (Reader.binary_Read 4 r3) as [e | [v4 r4]]; [discriminate |].
  intros H. injection H as <-. reflexivity.
Qed.

(** C6. [loadHeader] adds the length of the header fields (24), not the
    size of the header region (1024): on the header of a fresh block
    ([length = 0]) it leaves [writeOffset = 24], and on a header that declares
    16 payload bytes it leaves [writeOffset = 40], where the claim has 1024
    and 1040. *)
Theorem loadHeader_writeOffset_is_24_plus_length :
  (let r := loadHeader (fresh_block 4096) in
   fst r = Ret tt
   /\ fileBlock.length (snd r) = 0
   /\ fileBlock.writeOffset (snd r) = 24)
  /\ (let r := loadHeader (block_on header_16_2 0 false) in
      fst r = Ret tt
      /\ fileBlock.length (snd r) = 16
      /\ fileBlock.writeOffset (snd r) = 40).
Proof. vm_compute. repeat split. Qed.

(** ** Append *)

(** What a call of [Append] on a non-empty batch computes. *)
Lemma Append_nonempty Marshall w entities (b : fileBlock.t) :
  entities <> [] ->
  Append Marshall w entities b =
    match marshal_entities Marshall (fileBlock.writeOffset b) entities
                           ([], 0, []) with
    | inl err => (Fail err, pending_done b)
    | inr (buf, length, idxes) =>
        if length >? remain b (int64 (int (length + int (12 * len idxes))))
        then (Fail ErrNoEnoughCapacity, pending_done b)
        else
          let '(f, n, err) := File.Write (fileBlock.physicalFile b) w buf in
          (match err with Some e => Fail e | None => Ret tt end,
           appended f n idxes b)
    end.
Proof.
  intros Hne. destruct entities as [| e rest]; [congruence |].
  unfold Append, with_pending_append, bind, get, try, modify, ret, fail,
    return_err.
  cbn [fileBlock.writeOffset fileBlock.set_uncompletedAppendRequestCount].
  destruct (marshal_entities _ _ _ _) as [err | [[buf length] idxes]];
    [reflexivity |].
  unfold remain, v1IndexLength, fileSegmentBlockHeaderCapacity.
  cbn [fileBlock.capacity fileBlock.length fileBlock.number
       fileBlock.physicalFile].
  destruct (_ >? _); [reflexivity |].
  destruct (File.Write _ _ _) as [[f n] err].
  destruct err; reflexivity.
Qed.

Lemma Append_empty Marshall w (b : fileBlock.t) :
  Append Marshall w [] b = (Ret tt, pending_done b).
Proof. reflexivity. Qed.

(** The loop of [Append] on entries that all serialise: the buffer is the
    concatenation of the serialised entries, and [length] its size. *)
Lemma marshal_entities_data Marshall writeOffset entities data :
  map Marshall entities = map inr data ->
  forall buf length idxes,
    0 <= length ->
    length + len (List.concat data) < 2 ^ 63 ->
    marshal_entities Marshall writeOffset entities (buf, length, idxes)
    = inr (buf ++ List.concat data, length + len (List.concat data),
           idxes ++ frame_indexes writeOffset length data).
Proof.
  revert data. induction entities as [| e rest IH]; intros [| d data] Hmap;
    try discriminate; intros buf length idxes Hlo Hhi.
  - cbn. rewrite !app_nil_r, Z.add_0_r. reflexivity.
  - cbn in Hmap. injection Hmap as He Hrest.
    cbn [marshal_entities]. rewrite He.
    cbn [List.concat] in Hhi. rewrite len_app in Hhi.
    pose proof (len_nonneg d). pose proof (len_nonneg (List.concat data)).
    rewrite (int_fits (length + len d)) by lia.
    rewrite (IH data Hrest) by lia.
    cbn [List.concat frame_indexes]. rewrite len_app, <- !app_assoc.
    rewrite (int_fits (length + len d)) by lia.
    rewrite Z.add_assoc. reflexivity.
Qed.

Lemma frame_indexes_length writeOffset length data :
  List.length (frame_indexes writeOffset length data) = List.length data.
Proof.
  revert length. induction data as [| d data IH]; intros length; cbn;
    [reflexivity | now rewrite IH].
Qed.

(** [Append] never assigns to [b.length]. *)
Lemma Append_length_unchanged Marshall w entities (b : fileBlock.t) :
  fileBlock.length (snd (Append Marshall w entities b)) = fileBlock.length b.
Proof.
  destruct entities as [| e rest]; [reflexivity |].
  rewrite Append_nonempty by discriminate.
  destruct (marshal_entities _ _ _ _) as [err | [[buf length] idxes]];
    [reflexivity |].
  destruct (_ >? _); [reflexivity |].
  destruct (File.Write _ _ _) as [[f n] err]. reflexivity.
Qed.

(** C2. On a fresh block ([length = 0], [number = 0], write position 1024)
    the append of one framed entry of 7 bytes succeeds and leaves
    [number = 1], [writeOffset = 1031] and [indexes = [(1024, 7)]], but
    [length] is still 0, not 7: [Append] advances [number] and [writeOffset]
    and never [length]. When the block has gone through [Initialize] first,
    the record and the write position are off as well: [(24, 7)] and 31. *)
Theorem Append_single_entry_length_not_advanced :
  (let r := Append codec_Marshall None [entry abc] (fresh_block 4096) in
   fst r = Ret tt
   /\ fileBlock.number (snd r) = 1
   /\ fileBlock.writeOffset (snd r) = 1031
   /\ index_pairs (snd r) = [(1024, 7)]
   /\ fileBlock.length (snd r) = 0)
  /\ (let b := snd (Initialize (fresh_block 4096)) in
      let r := Append codec_Marshall None [entry abc] b in
      fst r = Ret tt
      /\ fileBlock.number (snd r) = 1
      /\ fileBlock.writeOffset (snd r) = 31
      /\ index_pairs (snd r) = [(24, 7)]
      /\ fileBlock.length (snd r) = 0).
Proof. vm_compute. repeat split. Qed.

(** C5. When the write fails, [Append] returns the error of the device, but
    the records of the batch have been appended to [indexes] and [number]
    has been advanced all the same: after a write of which no byte reached
    the file, a fresh block has [number = 1] and [indexes = [(1024, 7)]],
    with [writeOffset] still 1024 and the file unchanged. *)
Theorem Append_failed_write_advances_index :
  let b := fresh_block 4096 in
  let r := Append codec_Marshall (Some (File.mkFault 0 5)) [entry abc] b in
  fst r = Fail (ErrDevice 5)
  /\ File.contents (fileBlock.physicalFile (snd r))
     = File.contents (fileBlock.physicalFile b)
  /\ fileBlock.number b = 0
  /\ fileBlock.number (snd r) = 1
  /\ index_pairs b = []
  /\ index_pairs (snd r) = [(1024, 7)]
  /\ fileBlock.writeOffset (snd r) = 1024.
Proof. vm_compute. repeat split. Qed.

(** The error of a [Write] is never the capacity error of the block. *)
Lemma File_Write_error (f : File.t) w (p : list byte) f' n e :
  File.Write f w p = (f', n, Some e) -> e <> ErrNoEnoughCapacity.
Proof.
  unfold File.Write. destruct (File.closed f); [| destruct w];
    intros H; inversion H; subst; discriminate.
Qed.

Lemma map_inr_length {A B E : Type} (f : A -> E + B) (l : list A)
      (data : list B) :
  map f l = map inr data -> len data = len l.
Proof.
  intros H. unfold len. f_equal.
  rewrite <- (length_map (@inr E B) data), <- H, length_map. reflexivity.
Qed.

(** [remain] without wrap-around. *)
Lemma remain_exact (b : fileBlock.t) (size : Z) :
  0 <= fileBlock.number b <= 178956970 ->
  0 <= fileBlock.length b < 2 ^ 61 ->
  0 <= fileBlock.capacity b < 2 ^ 61 ->
  0 <= size < 2 ^ 61 ->
  remain b size
  = fileBlock.capacity b - fileBlock.length b - fileBlock.number b * 12
    - size - 1024.
Proof.
  intros Hn Hl Hc Hs.
  unfold remain, v1IndexLength, fileSegmentBlockHeaderCapacity.
  rewrite (int32_fits (fileBlock.number b * 12)) by lia.
  rewrite (int64_fits (fileBlock.number b * 12)) by lia.
  rewrite (int64_fits (fileBlock.capacity b - fileBlock.length b)) by lia.
  rewrite (int64_fits (_ - fileBlock.number b * 12)) by lia.
  rewrite (int64_fits (_ - size)) by lia.
  rewrite (int_fits (_ - size)) by lia.
  rewrite int_fits by lia. reflexivity.
Qed.

(** C3. For a non-empty batch whose entries serialise to [data], with
    [P] bytes in all and [n] entries, [Append] returns [ErrNoEnoughCapacity]
    if and only if [P > capacity - length - number*12 - (P + n*12) - 1024];
    and when it does, [indexes], [number], [writeOffset], [length] and the
    file are as before the call. The fields of the block are within the
    range in which the 32- and 64-bit arithmetic of the check is exact. *)
Theorem Append_capacity_check Marshall w entities data (b : fileBlock.t) :
  entities <> [] ->
  map Marshall entities = map inr data ->
  0 <= fileBlock.number b <= 178956970 ->
  0 <= fileBlock.length b < 2 ^ 61 ->
  0 <= fileBlock.capacity b < 2 ^ 61 ->
  len (List.concat data) + 12 * len entities < 2 ^ 61 ->
  let P := len (List.concat data) in
  let n := len entities in
  let r := Append Marshall w entities b in
  (fst r = Fail ErrNoEnoughCapacity
   <-> P > fileBlock.capacity b - fileBlock.length b
           - fileBlock.number b * 12 - (P + n * 12) - 1024)
  /\ (fst r = Fail ErrNoEnoughCapacity ->
      fileBlock.indexes (snd r) = fileBlock.indexes b
      /\ fileBlock.number (snd r) = fileBlock.number b
      /\ fileBlock.writeOffset (snd r) = fileBlock.writeOffset b
      /\ fileBlock.length (snd r) = fileBlock.length b
      /\ fileBlock.physicalFile (snd r) = fileBlock.physicalFile b).
Proof.
  intros Hne Hmap Hn Hl Hc Hsz P n r. subst r.
  pose proof (len_nonneg (List.concat data)) as HP.
  pose proof (len_nonneg entities) as Hlen.
  rewrite Append_nonempty by exact Hne.
  rewrite (marshal_entities_data _ _ _ _ Hmap) by (fold P; lia).
  cbn [app]. rewrite Z.add_0_l. fold P.
  assert (Hidx : len (frame_indexes (fileBlock.writeOffset b) 0 data) = n).
  { unfold len at 1. rewrite frame_indexes_length.
    exact (map_inr_length _ _ _ Hmap). }
  rewrite Hidx.
  rewrite (int_fits (12 * n)) by (fold n in Hsz; lia).
  rewrite (int_fits (P + 12 * n)) by (fold n P in Hsz; lia).
  rewrite (int64_fits (P + 12 * n)) by (fold n P in Hsz; lia).
  rewrite remain_exact by (fold n P in Hsz; lia).
  replace (P + 12 * n) with (P + n * 12) by lia.
  destruct (P >? _) eqn:Hgt.
  - cbn [fst snd]. split; [split; [intros _; lia | reflexivity] |].
    intros _. repeat split.
  - destruct (File.Write _ _ _) as [[f k] err] eqn:Hw. cbn [fst snd].
    assert (Hnot : (match err with Some e => Fail e | None => Ret tt end)
                   <> @Fail unit ErrNoEnoughCapacity).
    { destruct err as [e |]; [| discriminate].
      intros Heq. injection Heq as ->.
      exact (File_Write_error _ _ _ _ _ _ Hw eq_refl). }
    split; [split; [intros H; contradiction | intros H; exfalso; lia] |].
    intros H; contradiction.
Qed.

(** At a block that holds two entries, a batch of 7 bytes is refused when
    the capacity is 1060 and is not when it is 4096. *)
Lemma Append_capacity_check_witness :
  (let b := fileBlock.set_capacity 1060 block_S3 in
   let r := Append codec_Marshall None [entry abc] b in
   fst r = Fail ErrNoEnoughCapacity
   /\ fileBlock.indexes (snd r) = fileBlock.indexes b
   /\ fileBlock.physicalFile (snd r) = fileBlock.physicalFile b)
  /\ fst (Append codec_Marshall None [entry abc] block_S3)
     <> Fail ErrNoEnoughCapacity.
Proof.
  pose proof (Append_capacity_check codec_Marshall None [entry abc]
                [Binary.put 4 3 ++ abc]
                (fileBlock.set_capacity 1060 block_S3)
                ltac:(discriminate) eq_refl
                ltac:(vm_compute; split; discriminate)
                ltac:(vm_compute; split; [discriminate | reflexivity])
                ltac:(vm_compute; split; [discriminate | reflexivity])
                ltac:(vm_compute; reflexivity)) as [[_ Hfail] Hsame].
  pose proof (Append_capacity_check codec_Marshall None [entry abc]
                [Binary.put 4 3 ++ abc] block_S3
                ltac:(discriminate) eq_refl
                ltac:(vm_compute; split; discriminate)
                ltac:(vm_compute; split; [discriminate | reflexivity])
                ltac:(vm_compute; split; [discriminate | reflexivity])
                ltac:(vm_compute; reflexivity)) as [[Hok _] _].
  split.
  - assert (Hr : fst (Append codec_Marshall None [entry abc]
                        (fileBlock.set_capacity 1060 block_S3))
                 = Fail ErrNoEnoughCapacity).
    { apply Hfail. vm_compute. reflexivity. }
    destruct (Hsame Hr) as (Hi & _ & _ & _ & Hf).
    cbv zeta. repeat split; assumption.
  - intros Hr. apply Hok in Hr. vm_compute in Hr. discriminate.
Defined.

(** ** CloseWrite and later appends *)

(** [Append] neither reads nor writes the [appendable] flag. *)
Lemma Append_set_appendable Marshall w entities (v : bool) (b : fileBlock.t) :
  Append Marshall w entities (fileBlock.set_appendable v b)
  = (fst (Append Marshall w entities b),
     fileBlock.set_appendable v (snd (Append Marshall w entities b))).
Proof.
  destruct entities as [| e rest]; [reflexivity |].
  rewrite !Append_nonempty by discriminate.
  cbn [fileBlock.writeOffset fileBlock.set_appendable].
  destruct (marshal_entities _ _ _ _) as [err | [[buf length] idxes]];
    [reflexivity |].
  unfold remain.
  cbn [fileBlock.capacity fileBlock.length fileBlock.number
       fileBlock.physicalFile].
  destruct (_ >? _); [reflexivity |].
  destruct (File.Write _ _ _) as [[f n] err]. reflexivity.
Qed.

Lemma set_appendable_same (b : fileBlock.t) :
  fileBlock.set_appendable (fileBlock.appendable b) b = b.
Proof. destruct b. reflexivity. Qed.

Lemma persistHeader_appendable (b b1 : fileBlock.t) r :
  persistHeader b = (r, b1) ->
  fileBlock.appendable b1 = fileBlock.appendable b.
Proof.
  unfold persistHeader, bind, get, modify, check, return_err, ret, fail.
  destruct (File.WriteAt _ _ _) as [f [e |]];
    intros H; injection H as <- <-; reflexivity.
Qed.

Lemma persistIndex_appendable (b b1 : fileBlock.t) r :
  persistIndex b = (r, b1) ->
  fileBlock.appendable b1 = fileBlock.appendable b.
Proof.
  unfold persistIndex, bind, get, modify, check, return_err, ret, fail.
  destruct (negb (IsFull b)).
  - intros H; injection H as <- <-; reflexivity.
  - destruct (File.WriteAt _ _ _) as [f [e |]];
      intros H; injection H as <- <-; reflexivity.
Qed.

Lemma CloseWrite_appendable (b b1 : fileBlock.t) :
  CloseWrite b = (Ret tt, b1) -> fileBlock.appendable b1 = false.
Proof.
  unfold CloseWrite, wait_appends, bind, get, modify, ret, panic.
  destruct (_ =? 0); [| discriminate].
  destruct (persistHeader _) as [[[] | e | p] b2] eqn:Hh; try discriminate.
  intros Hi.
  rewrite (persistIndex_appendable _ _ _ Hi).
  rewrite (persistHeader_appendable _ _ _ Hh). reflexivity.
Qed.

(** C4, as the code has it. When [CloseWrite] has returned, [appendable] is
    false and [IsAppendable] reports false; [Append] does not consult the
    flag: on the sealed block it returns what it returns on the same block
    with [appendable] set, and has the same effect. The gate is
    [IsAppendable], for the caller to ask. *)
Theorem CloseWrite_clears_flag_Append_ignores_it
        Marshall w entities (b b1 : fileBlock.t) :
  CloseWrite b = (Ret tt, b1) ->
  fileBlock.appendable b1 = false
  /\ IsAppendable b1 = false
  /\ (let r := Append Marshall w entities
                      (fileBlock.set_appendable true b1) in
      Append Marshall w entities b1
      = (fst r, fileBlock.set_appendable false (snd r))).
Proof.
  intros H. pose proof (CloseWrite_appendable _ _ H) as Hflag.
  split; [exact Hflag |]. split.
  - unfold IsAppendable. rewrite Hflag. reflexivity.
  - cbv zeta. rewrite (Append_set_appendable _ _ _ true b1). cbn [fst snd].
    rewrite <- (set_appendable_same b1) at 1. rewrite Hflag.
    rewrite Append_set_appendable.
    destruct (Append Marshall w entities b1) as [r b2]. cbn [fst snd].
    destruct b2. reflexivity.
Qed.

(** On scenario S3, marked full and sealed. *)
Lemma CloseWrite_clears_flag_Append_ignores_it_witness :
  fileBlock.appendable sealed_S3 = false
  /\ IsAppendable sealed_S3 = false
  /\ Append codec_Marshall None [entry hello] sealed_S3
     = (fst (Append codec_Marshall None [entry hello]
               (fileBlock.set_appendable true sealed_S3)),
        fileBlock.set_appendable false
          (snd (Append codec_Marshall None [entry hello]
                  (fileBlock.set_appendable true sealed_S3)))).
Proof.
  apply (CloseWrite_clears_flag_Append_ignores_it codec_Marshall None
           [entry hello] (fileBlock.set_fullFlag true block_S3) sealed_S3).
  vm_compute. reflexivity.
Defined.

(** C4, as stated, fails: after [CloseWrite] has returned on the full block
    of scenario S3, [Append] of one more entry succeeds and stores it as
    entry number 3. *)
Lemma Append_after_CloseWrite_succeeds : ~ sealed_block_rejects_appends.
Proof.
  intros H.
  apply (H codec_Marshall None [entry hello]
           (fileBlock.set_fullFlag true block_S3) sealed_S3).
  - discriminate.
  - vm_compute. reflexivity.
  - vm_compute. reflexivity.
Qed.

Lemma Append_after_CloseWrite_stores :
  let r := Append codec_Marshall None [entry hello] sealed_S3 in
  fst r = Ret tt
  /\ fileBlock.number (snd r) = 3
  /\ index_pairs (snd r) = [(1024, 7); (1031, 9); (1040, 9)].
Proof. vm_compute. repeat split. Qed.

(** ** Range resolution *)

Lemma index_Some {A : Type} (l : list A) (i : Z) :
  0 <= i < len l -> exists a, index l i = Some a.
Proof.
  intros [Hlo Hhi]. unfold index.
  destruct (i <? 0) eqn:E; [apply Z.ltb_lt in E; lia |].
  destruct (nth_error l (Z.to_nat i)) as [a |] eqn:En; [now exists a |].
  apply nth_error_None in En. unfold len in Hhi. lia.
Qed.

Lemma index_negative {A : Type} (l : list A) (i : Z) :
  i < 0 -> index l i = None.
Proof.
  intros H. unfold index. apply Z.ltb_lt in H. rewrite H. reflexivity.
Qed.

(** [calculateRange] does not look at the counter of pending reads. *)
Lemma calculateRange_read_counter (c start num : Z) (b : fileBlock.t) :
  calculateRange start num (fileBlock.set_uncompletedReadRequestCount c b)
  = (fst (calculateRange start num b),
     fileBlock.set_uncompletedReadRequestCount c
       (snd (calculateRange start num b))).
Proof.
  unfold calculateRange, bind, get, at_index, ret, fail, panic.
  cbn [fileBlock.indexes fileBlock.number
       fileBlock.set_uncompletedReadRequestCount].
  repeat match goal with
         | |- context [if ?c then _ else _] => destruct c
         | |- context [match index ?l ?i with _ => _ end] =>
             destruct (index l i)
         end; reflexivity.
Qed.

(** C10. On a block with at least one entry, [calculateRange(0, 0)] indexes
    [b.indexes] at -1, which panics, and so does [Read(0, 0)]; more
    generally from ordinal 0 every count below 1 runs into the index
    [count - 1]. With a count of at least 1 and a start inside the block
    the two index expressions are in range and [calculateRange] returns. *)
Theorem calculateRange_end_index_guard (b : fileBlock.t) (start num : Z) :
  fileBlock.number b = len (fileBlock.indexes b) ->
  1 <= len (fileBlock.indexes b) < 2 ^ 31 ->
  fst (calculateRange 0 0 b) = Abort (IndexOutOfRange (-1))
  /\ fst (Read 0 0 b) = Abort (IndexOutOfRange (-1))
  /\ (- 2 ^ 31 <= num < 1 ->
      fst (calculateRange 0 num b) = Abort (IndexOutOfRange (num - 1)))
  /\ (0 <= start < fileBlock.number b -> 1 <= num -> start + num < 2 ^ 31 ->
      exists from to, fst (calculateRange start num b) = Ret (from, to)).
Proof.
  intros Hnum Hlen.
  assert (Hzero : forall k, - 2 ^ 31 <= k < 1 ->
            fst (calculateRange 0 k b) = Abort (IndexOutOfRange (k - 1))).
  { intros k Hk.
    unfold calculateRange, bind, get, at_index, ret, fail, panic.
    destruct (0 >=? len (fileBlock.indexes b)) eqn:E;
      [apply Z.geb_le in E; lia |].
    destruct (index_Some (fileBlock.indexes b) 0 ltac:(lia)) as [a Ha].
    rewrite Ha. rewrite Z.add_0_l.
    rewrite (int_fits k) by lia. rewrite (int_fits (k - 1)) by lia.
    replace (k - 1 + 1) with k by lia.
    rewrite (int_fits k) by lia. rewrite (int32_fits k) by lia.
    destruct (fileBlock.number b <? k) eqn:E2;
      [apply Z.ltb_lt in E2; lia |].
    rewrite index_negative by lia. reflexivity. }
  split; [exact (Hzero 0 ltac:(lia)) |]. split.
  - unfold Read, with_pending_read, bind.
    rewrite calculateRange_read_counter.
    pose proof (Hzero 0 ltac:(lia)) as H0.
    destruct (calculateRange 0 0 b) as [r b'].
    cbn [fst snd] in *. subst r. reflexivity.
  - split; [exact (Hzero num) |].
    intros Hs Hn Hsum.
    unfold calculateRange, bind, get, at_index, ret, fail, panic.
    destruct (start >=? len (fileBlock.indexes b)) eqn:E;
      [apply Z.geb_le in E; lia |].
    destruct (index_Some (fileBlock.indexes b) start ltac:(lia)) as [a Ha].
    rewrite Ha.
    rewrite (int_fits (start + num)) by lia.
    rewrite (int_fits (start + num - 1)) by lia.
    replace (start + num - 1 + 1) with (start + num) by lia.
    rewrite (int_fits (start + num)) by lia.
    rewrite (int32_fits (start + num)) by lia.
    destruct (fileBlock.number b <? start + num) eqn:E2.
    + rewrite (int32_fits (fileBlock.number b - 1)) by lia.
      destruct (index_Some (fileBlock.indexes b) (fileBlock.number b - 1)
                  ltac:(lia)) as [z Hz].
      rewrite Hz. do 2 eexists. reflexivity.
    + apply Z.ltb_ge in E2.
      destruct (index_Some (fileBlock.indexes b) (start + num - 1)
                  ltac:(lia)) as [z Hz].
      rewrite Hz. do 2 eexists. reflexivity.
Qed.

(** On scenario S3: a count of 0 panics, a count of 1 does not. *)
Lemma calculateRange_end_index_guard_witness :
  fst (calculateRange 0 0 block_S3) = Abort (IndexOutOfRange (-1))
  /\ fst (Read 0 0 block_S3) = Abort (IndexOutOfRange (-1))
  /\ exists from to, fst (calculateRange 0 1 block_S3) = Ret (from, to).
Proof.
  destruct (calculateRange_end_index_guard block_S3 0 1)
    as (H1 & H2 & _ & H4).
  - reflexivity.
  - vm_compute. split; [discriminate | reflexivity].
  - split; [exact H1 |]. split; [exact H2 |].
    apply H4.
    + vm_compute. split; [discriminate | reflexivity].
    + vm_compute. discriminate.
    + vm_compute. reflexivity.
Defined.

(** ** Recovery *)

(** C1. The three indexes of scenario S3 differ. The live append path has
    [(1024, 7), (1031, 9)]. The block is then marked full and sealed, and
    its file reopened. The full-block path decodes the 24 bytes at
    [writeOffset], which [loadHeader] has set to 24, inside the header
    region, and yields [(0, 0), (0, 0)]. The rebuild path scans the length
    prefixes from 1024 and records each prefix as the length, without the
    four bytes of the prefix itself: [(1024, 3), (1031, 5)]. *)
Theorem recovery_paths_disagree :
  index_pairs block_S3 = [(1024, 7); (1031, 9)]
  /\ fst (CloseWrite (fileBlock.set_fullFlag true block_S3)) = Ret tt
  /\ fst (reopen true sealed_S3) = Ret tt
  /\ index_pairs (snd (reopen true sealed_S3)) = [(0, 0); (0, 0)]
  /\ fst (reopen false sealed_S3) = Ret tt
  /\ index_pairs (snd (reopen false sealed_S3)) = [(1024, 3); (1031, 5)].
Proof. vm_compute. repeat split. Qed.

(** C8. The packing invariant fails after [Initialize], through either
    path, and after an [Append] that follows [Initialize]. On the sealed file
    of scenario S3 the rebuilt index is [(1024, 3), (1031, 5)]: the second
    record starts at 1031, not at 1024 + 3; the index of the full-block path
    is [(0, 0), (0, 0)], whose first record does not start at 1024. On a
    fresh block that has been initialized, the first appended record starts
    at 24, not at 1024. *)
Theorem packing_invariant_broken :
  (let r := reopen false sealed_S3 in
   fst r = Ret tt
   /\ fileBlock.number (snd r) = 2
   /\ index_pairs (snd r) = [(1024, 3); (1031, 5)]
   /\ ~ packed (snd r))
  /\ (let r := reopen true sealed_S3 in
      fst r = Ret tt
      /\ fileBlock.number (snd r) = 2
      /\ index_pairs (snd r) = [(0, 0); (0, 0)]
      /\ ~ packed (snd r))
  /\ (let b := snd (Initialize (fresh_block 4096)) in
      let r := Append codec_Marshall None [entry abc] b in
      fst (Initialize (fresh_block 4096)) = Ret tt
      /\ packed b
      /\ fst r = Ret tt
      /\ fileBlock.number (snd r) = 1
      /\ index_pairs (snd r) = [(24, 7)]
      /\ ~ packed (snd r)).
Proof.
  split; [| split]; cbv zeta.
  - do 3 (split; [vm_compute; reflexivity |]).
    intros H.
    specialize (H 1%nat (blockIndex.mk 1031 5)
                  ltac:(vm_compute; reflexivity) ltac:(vm_compute; reflexivity)).
    vm_compute in H. discriminate.
  - do 3 (split; [vm_compute; reflexivity |]).
    intros H.
    specialize (H 0%nat (blockIndex.mk 0 0)
                  ltac:(vm_compute; repeat constructor)
                  ltac:(vm_compute; reflexivity)).
    vm_compute in H. discriminate.
  - split; [vm_compute; reflexivity |]. split.
    { intros i bi Hi. vm_compute in Hi. destruct i; discriminate. }
    do 3 (split; [vm_compute; reflexivity |]).
    intros H.
    specialize (H 0%nat (blockIndex.mk 24 7)
                  ltac:(vm_compute; reflexivity) ltac:(vm_compute; reflexivity)).
    vm_compute in H. discriminate.
Qed.

(** ** Read *)

(** C7. Two blocks on which [Read(0, 1)] does not return one entry although
    ordinal 0 is stored. On a block whose only entry has an empty payload,
    the loop of [Read] takes the [io.EOF] of reading zero payload bytes at
    the end of the buffer for the end of the data and drops the entry: the
    result is the empty list, without an error. On the file of scenario S3
    reopened through the rebuild path, the record of the first entry covers
    3 bytes, and [Read(0, 1)] fails with [io.ErrUnexpectedEOF]. *)
Theorem Read_returns_fewer_entries :
  (fileBlock.number block_empty_entry = 1
   /\ index_pairs block_empty_entry = [(1024, 4)]
   /\ fst (Read 0 1 block_empty_entry) = Ret [])
  /\ (let b := snd (reopen false sealed_S3) in
      fileBlock.number b = 2
      /\ fst (Read 0 1 b) = Fail ErrUnexpectedEOF).
Proof. vm_compute. repeat split. Qed.

(** ** Big-endian integers *)

Lemma Z_of_byte_of_Z (z : Z) : Binary.Z_of_byte (Binary.byte_of_Z z) = z mod 256.
Proof.
  unfold Binary.Z_of_byte, Binary.byte_of_Z.
  pose proof (Z.mod_pos_bound z 256 ltac:(lia)) as Hb.
  destruct (Byte.of_N (Z.to_N (z mod 256))) as [x |] eqn:E.
  - apply Byte.to_of_N in E. rewrite E. lia.
  - apply Byte.of_N_None_iff in E. lia.
Qed.

Lemma put_length (n : nat) (z : Z) : List.length (Binary.put n z) = n.
Proof. induction n as [| k IH]; cbn; [reflexivity | now rewrite IH]. Qed.

Lemma get_acc_put (n : nat) (z acc : Z) :
  Binary.get_acc acc (Binary.put n z)
  = acc * 2 ^ (8 * Z.of_nat n) + z mod 2 ^ (8 * Z.of_nat n).
Proof.
  revert acc. induction n as [| k IH]; intros acc.
  - cbn. rewrite Z.mod_1_r. lia.
  - cbn [Binary.put Binary.get_acc]. rewrite IH, Z_of_byte_of_Z.
    rewrite Z.shiftr_div_pow2 by lia.
    replace (8 * Z.of_nat (S k)) with (8 * Z.of_nat k + 8) by lia.
    rewrite Z.pow_add_r by lia.
    assert (Hpos : 0 < 2 ^ (8 * Z.of_nat k)) by (apply Z.pow_pos_nonneg; lia).
    rewrite (Z.rem_mul_r z (2 ^ (8 * Z.of_nat k)) (2 ^ 8)) by lia.
    change (2 ^ 8) with 256. lia.
Qed.

(** Decoding what was encoded gives the value back, reduced to the width. *)
Lemma get_put (n : nat) (z : Z) :
  Binary.get (Binary.put n z) = z mod 2 ^ (8 * Z.of_nat n).
Proof. unfold Binary.get. rewrite get_acc_put. lia. Qed.

Lemma get_put_4 (z : Z) : 0 <= z < 2 ^ 31 -> int32 (Binary.get (Binary.put 4 z)) = z.
Proof.
  intros H. rewrite get_put. change (2 ^ (8 * Z.of_nat 4)) with (2 ^ 32).
  rewrite Z.mod_small by lia. apply int32_fits. lia.
Qed.

(** ** The loop of Read terminates *)

Lemma binary_Read_shorter (n : nat) (r r' : Reader.t) (u : Z) :
  Reader.binary_Read n r = inr (u, r') ->
  List.length r' = (List.length r - n)%nat.
Proof.
  unfold Reader.binary_Read. destruct r as [| x r0]; [discriminate |].
  destruct (n <=? _)%nat; [| discriminate].
  intros H. injection H as _ <-. apply length_skipn.
Qed.

Lemma binary_Read_enough (n : nat) (r r' : Reader.t) (u : Z) :
  Reader.binary_Read n r = inr (u, r') -> (n <= List.length r)%nat.
Proof.
  unfold Reader.binary_Read. destruct r as [| x r0]; [discriminate |].
  destruct (n <=? _)%nat eqn:E; [| discriminate].
  intros _. now apply Nat.leb_le.
Qed.

Lemma Reader_Read_shorter (n : nat) (r r' : Reader.t) (p : list byte) :
  Reader.Read n r = inr (p, r') -> (List.length r' <= List.length r)%nat.
Proof.
  unfold Reader.Read. destruct r as [| x r0]; [discriminate |].
  intros H. injection H as _ <-. rewrite length_skipn. lia.
Qed.

(** With more iterations than bytes, the loop of [Read] ends by itself. *)
Lemma deframe_terminates (fuel : nat) :
  forall (reader : Reader.t) (ses : list StoredEntry.t),
    (List.length reader < fuel)%nat ->
    deframe fuel reader ses <> None.
Proof.
  induction fuel as [| fuel IH]; intros reader ses Hfuel; [lia |].
  cbn [deframe].
  destruct (Reader.binary_Read 4 reader) as [e | [u r1]] eqn:E1;
    [discriminate |].
  destruct (int (int32 u) <? 0); [discriminate |].
  destruct (Reader.Read _ r1) as [e | [payload r2]] eqn:E2; [discriminate |].
  apply IH.
  pose proof (binary_Read_shorter _ _ _ _ E1).
  pose proof (binary_Read_enough _ _ _ _ E1).
  pose proof (Reader_Read_shorter _ _ _ _ E2). lia.
Qed.

Lemma deframe_fuel_enough (data : list byte) :
  deframe (deframe_fuel data) data [] <> None.
Proof. apply deframe_terminates. unfold deframe_fuel. lia. Qed.

(** ** Deframing a buffer of frames *)

Lemma binary_Read_put (z : Z) (tl : list byte) :
  Reader.binary_Read 4 (Binary.put 4 z ++ tl)
  = inr (Binary.get (Binary.put 4 z), tl).
Proof.
  unfold Reader.binary_Read.
  destruct (Binary.put 4 z ++ tl) as [| x r] eqn:E; [discriminate |].
  rewrite <- E.
  assert (Hlen : List.length (Binary.put 4 z) = 4%nat) by apply put_length.
  replace (4 <=? List.length (Binary.put 4 z ++ tl))%nat with true
    by (symmetry; apply Nat.leb_le; rewrite length_app; lia).
  rewrite <- Hlen at 1 3.
  rewrite firstn_app, firstn_all, Nat.sub_diag, firstn_O, app_nil_r.
  rewrite skipn_app, skipn_all, Nat.sub_diag. reflexivity.
Qed.

Lemma Reader_Read_app (p tl : list byte) :
  p ++ tl <> [] -> Reader.Read (List.length p) (p ++ tl) = inr (p, tl).
Proof.
  intros Hne. unfold Reader.Read.
  destruct (p ++ tl) as [| x r] eqn:E; [congruence |]. rewrite <- E.
  rewrite firstn_app, firstn_all, Nat.sub_diag, firstn_O, app_nil_r.
  rewrite Nat.sub_diag. cbn [repeat]. rewrite app_nil_r.
  rewrite skipn_app, skipn_all, Nat.sub_diag. reflexivity.
Qed.

Lemma frame_not_nil (p : list byte) : frame p <> [].
Proof. unfold frame. cbn. discriminate. Qed.

Lemma frame_length (p : list byte) : len (frame p) = 4 + len p.
Proof. unfold frame. rewrite len_app. unfold len. rewrite put_length. lia. Qed.

Lemma concat_frames_length (ps : list (list byte)) :
  len (List.concat (map frame ps)) = framed_size ps.
Proof.
  induction ps as [| p rest IH]; [reflexivity |].
  cbn [map List.concat framed_size]. rewrite len_app, frame_length, IH. lia.
Qed.

Lemma framed_size_nonneg (ps : list (list byte)) : 0 <= framed_size ps.
Proof.
  induction ps as [| p rest IH]; cbn [framed_size]; [lia |].
  pose proof (len_nonneg p). lia.
Qed.

Lemma framed_size_app (ps qs : list (list byte)) :
  framed_size (ps ++ qs) = framed_size ps + framed_size qs.
Proof.
  induction ps as [| p rest IH]; cbn [framed_size app]; [lia | rewrite IH; lia].
Qed.

(** The loop of [Read] on a buffer that holds the frames of [ps]: the
    entries of [delivered ps], and [io.EOF]. *)
Lemma deframe_frames (ps : list (list byte)) :
  Forall (fun p => len p < 2 ^ 31 - 4) ps ->
  forall (fuel : nat) (ses : list StoredEntry.t),
    (List.length (List.concat (map frame ps)) < fuel)%nat ->
    deframe fuel (List.concat (map frame ps)) ses
    = Some (inr (ses ++ map entry (delivered ps), EOF)).
Proof.
  induction ps as [| p rest IH]; intros Hsmall fuel ses Hfuel.
  - destruct fuel as [| fuel]; [cbn in Hfuel; lia |].
    cbn. rewrite app_nil_r. reflexivity.
  - destruct fuel as [| fuel]; [lia |].
    inversion Hsmall as [| p' rest' Hp Hrest]; subst.
    cbn [map List.concat] in *. unfold frame at 1. rewrite <- app_assoc.
    cbn [deframe]. rewrite binary_Read_put.
    pose proof (len_nonneg p) as Hp0.
    rewrite get_put_4 by lia. rewrite (int_fits (len p)) by lia.
    destruct (len p <? 0) eqn:E; [apply Z.ltb_lt in E; lia |].
    replace (Z.to_nat (len p)) with (List.length p) by (unfold len; lia).
    assert (Hrec : (List.length (List.concat (map frame rest)) < fuel)%nat).
    { assert (Hfl : List.length (frame p) = (4 + List.length p)%nat)
        by (unfold frame; rewrite length_app, put_length; reflexivity).
      rewrite length_app, Hfl in Hfuel. lia. }
    destruct rest as [| q rest].
    + cbn [map List.concat]. rewrite app_nil_r.
      destruct p as [| x p].
      * cbn. rewrite app_nil_r. reflexivity.
      * rewrite <- (app_nil_r (x :: p)) at 2.
        rewrite Reader_Read_app by discriminate.
        specialize (IH Hrest fuel (ses ++ [StoredEntry.mk (len (x :: p)) (x :: p)])).
        cbn [map List.concat] in IH. rewrite IH by exact Hrec.
        cbn [delivered map]. rewrite <- app_assoc. reflexivity.
    + rewrite Reader_Read_app.
      * rewrite (IH Hrest) by exact Hrec.
        cbn [delivered map]. rewrite <- app_assoc. reflexivity.
      * cbn [map List.concat]. intros H.
        apply app_eq_nil in H. destruct H as [_ H].
        apply app_eq_nil in H. destruct H as [H _].
        exact (frame_not_nil q H).
Qed.

(** ** The index of packed frames *)

Lemma packed_from_length (off : Z) (ps : list (list byte)) :
  List.length (packed_from off ps) = List.length ps.
Proof.
  revert off. induction ps as [| p rest IH]; intros off; cbn;
    [reflexivity | now rewrite IH].
Qed.

Lemma nth_error_packed_from (ps : list (list byte)) :
  forall (off : Z) (k : nat) (p : list byte),
    nth_error ps k = Some p ->
    nth_error (packed_from off ps) k
    = Some (blockIndex.mk (off + framed_size (firstn k ps)) (4 + len p)).
Proof.
  induction ps as [| q rest IH]; intros off k p Hk.
  - destruct k; discriminate.
  - destruct k as [| k].
    + cbn in Hk. injection Hk as ->. cbn. rewrite Z.add_0_r. reflexivity.
    + cbn in Hk. cbn [packed_from nth_error firstn framed_size].
      rewrite (IH _ _ _ Hk). do 2 f_equal. lia.
Qed.

Lemma framed_size_firstn_S (ps : list (list byte)) :
  forall (k : nat) (p : list byte),
    nth_error ps k = Some p ->
    framed_size (firstn (S k) ps) = framed_size (firstn k ps) + (4 + len p).
Proof.
  induction ps as [| q rest IH]; intros k p Hk.
  - destruct k; discriminate.
  - destruct k as [| k].
    + cbn in Hk. injection Hk as ->. cbn [firstn framed_size]. lia.
    + cbn in Hk. cbn [firstn framed_size] in *. rewrite (IH _ _ Hk). lia.
Qed.

Lemma framed_size_firstn_le (ps : list (list byte)) (k : nat) :
  framed_size (firstn k ps) <= framed_size ps.
Proof.
  rewrite <- (firstn_skipn k ps) at 2. rewrite framed_size_app.
  pose proof (framed_size_nonneg (skipn k ps)). lia.
Qed.

(** Record [k] of the index of a block that holds [ps]. *)
Lemma index_holds (b : fileBlock.t) (base : Z) (ps : list (list byte)) (k : Z) :
  holds b base ps ->
  0 <= k < len ps ->
  exists p,
    nth_error ps (Z.to_nat k) = Some p
    /\ len p < 2 ^ 31 - 4
    /\ index (fileBlock.indexes b) k
       = Some (blockIndex.mk (base + framed_size (firstn (Z.to_nat k) ps))
                             (4 + len p)).
Proof.
  intros H Hk.
  destruct (nth_error ps (Z.to_nat k)) as [p |] eqn:E.
  - exists p. split; [reflexivity |]. split.
    + pose proof (holds_small _ _ _ H) as Hs.
      rewrite Forall_forall in Hs. apply Hs.
      eapply nth_error_In; eassumption.
    + rewrite (holds_indexes _ _ _ H). unfold index.
      destruct (k <? 0) eqn:E0; [apply Z.ltb_lt in E0; lia |].
      apply nth_error_packed_from. exact E.
  - apply nth_error_None in E. unfold len in Hk. lia.
Qed.

(** On a block that holds [ps], the range of [count >= 1] entries from
    ordinal [start] is the bytes between the end of the frames before
    [start] and the end of the frames before [min (start + count) n]. *)
Lemma calculateRange_holds (b : fileBlock.t) (base : Z)
      (ps : list (list byte)) (start num : Z) :
  holds b base ps ->
  0 <= start < len ps ->
  1 <= num ->
  start + num < 2 ^ 31 ->
  calculateRange start num b
  = (Ret (base + framed_size (firstn (Z.to_nat start) ps),
          base + framed_size
                   (firstn (Z.to_nat (Z.min (start + num) (len ps))) ps)),
     b).
Proof.
  intros H Hs Hn Hsum.
  pose proof (holds_count _ _ _ H) as Hcount.
  pose proof (holds_base _ _ _ H) as Hbase.
  pose proof (holds_end _ _ _ H) as Hend.
  assert (Hlen : len (fileBlock.indexes b) = len ps).
  { rewrite (holds_indexes _ _ _ H). unfold len.
    rewrite packed_from_length. reflexivity. }
  unfold calculateRange, bind, get, at_index, ret, fail, panic.
  rewrite Hlen, (holds_number _ _ _ H).
  destruct (start >=? len ps) eqn:E; [apply Z.geb_le in E; lia |].
  destruct (index_holds b base ps start H Hs) as (p & _ & _ & Hp).
  rewrite Hp. cbn [blockIndex.startOffset].
  rewrite (int_fits (start + num)) by lia.
  rewrite (int_fits (start + num - 1)) by lia.
  replace (start + num - 1 + 1) with (start + num) by lia.
  rewrite (int_fits (start + num)) by lia.
  rewrite (int32_fits (start + num)) by lia.
  assert (Hlast : forall k, 0 <= k < len ps ->
            exists z,
              index (fileBlock.indexes b) k = Some z
              /\ int64 (blockIndex.startOffset z + int64 (blockIndex.length z))
                 = base + framed_size (firstn (Z.to_nat (k + 1)) ps)).
  { intros k Hk.
    destruct (index_holds b base ps k H Hk) as (q & Hq & Hsmall & Hidx).
    eexists. split; [exact Hidx |].
    cbn [blockIndex.startOffset blockIndex.length].
    replace (Z.to_nat (k + 1)) with (S (Z.to_nat k)) by lia.
    pose proof (framed_size_firstn_S _ _ _ Hq) as HS.
    pose proof (framed_size_firstn_le ps (S (Z.to_nat k))).
    pose proof (framed_size_nonneg (firstn (Z.to_nat k) ps)).
    pose proof (len_nonneg q).
    rewrite (int64_fits (4 + len q)) by lia.
    rewrite int64_fits by lia. lia. }
  destruct (len ps <? start + num) eqn:E2.
  - apply Z.ltb_lt in E2.
    rewrite (int32_fits (len ps - 1)) by lia.
    destruct (Hlast (len ps - 1) ltac:(lia)) as (z & Hz & Hto).
    rewrite Hz, Hto. rewrite Z.min_r by lia.
    replace (len ps - 1 + 1) with (len ps) by lia. reflexivity.
  - apply Z.ltb_ge in E2.
    destruct (Hlast (start + num - 1) ltac:(lia)) as (z & Hz & Hto).
    rewrite Hz, Hto. rewrite Z.min_l by lia.
    replace (start + num - 1 + 1) with (start + num) by lia. reflexivity.
Qed.

(** ** Reading the frames back *)

(** A piece of a region of a file, read where it lies. *)
Lemma firstn_skipn_piece {A : Type} (c : list A) (base T : nat)
      (F1 F2 F3 : list A) :
  firstn T (skipn base c) = F1 ++ F2 ++ F3 ->
  firstn (List.length F2) (skipn (base + List.length F1) c) = F2.
Proof.
  intros H.
  rewrite Nat.add_comm, <- skipn_skipn.
  rewrite <- (firstn_skipn T (skipn base c)), H.
  rewrite <- !app_assoc.
  rewrite skipn_app, skipn_all, Nat.sub_diag. cbn [skipn app].
  rewrite firstn_app, firstn_all, Nat.sub_diag, firstn_O, app_nil_r.
  reflexivity.
Qed.

Lemma firstn_skipn_split {A : Type} (l : list A) (s e : nat) :
  (s <= e)%nat ->
  l = firstn s l ++ firstn (e - s) (skipn s l) ++ skipn e l.
Proof.
  intros Hse.
  rewrite <- (firstn_skipn s l) at 1. f_equal.
  rewrite <- (firstn_skipn (e - s) (skipn s l)) at 1. f_equal.
  rewrite skipn_skipn. f_equal. lia.
Qed.

Lemma concat_map_app {A B : Type} (f : A -> list B) (l1 l2 : list A) :
  List.concat (map f (l1 ++ l2))
  = List.concat (map f l1) ++ List.concat (map f l2).
Proof. rewrite map_app, concat_app. reflexivity. Qed.

Lemma nat_len {A : Type} (l : list A) : Z.to_nat (len l) = List.length l.
Proof. unfold len. lia. Qed.

Lemma framed_size_range (ps : list (list byte)) (s e : nat) :
  (s < e <= List.length ps)%nat ->
  framed_size (firstn e ps) - framed_size (firstn s ps)
  = framed_size (firstn (e - s) (skipn s ps))
  /\ 0 < framed_size (firstn (e - s) (skipn s ps)).
Proof.
  intros Hse.
  set (mid := firstn (e - s) (skipn s ps)).
  assert (Hfe : firstn e ps = firstn s ps ++ mid).
  { rewrite (firstn_skipn_split ps s e) at 1 by lia. fold mid.
    rewrite app_assoc, firstn_app.
    assert (Hl : List.length (firstn s ps ++ mid) = e).
    { rewrite length_app. unfold mid. rewrite !length_firstn, length_skipn.
      lia. }
    rewrite <- Hl at 1 2. rewrite firstn_all, Nat.sub_diag, firstn_O.
    apply app_nil_r. }
  split.
  - rewrite Hfe, framed_size_app. lia.
  - destruct mid as [| q mid'] eqn:Em.
    + exfalso.
      assert (Hl : List.length mid = 0%nat) by (rewrite Em; reflexivity).
      unfold mid in Hl. rewrite length_firstn, length_skipn in Hl. lia.
    + cbn [framed_size]. pose proof (len_nonneg q).
      pose proof (framed_size_nonneg mid'). lia.
Qed.

(** [ReadAt] of the byte range of the entries [s], ..., [e - 1]. *)
Lemma ReadAt_holds (b : fileBlock.t) (base : Z) (ps : list (list byte))
      (s e : nat) :
  holds b base ps ->
  (s < e <= List.length ps)%nat ->
  File.ReadAt (fileBlock.physicalFile b)
              (framed_size (firstn e ps) - framed_size (firstn s ps))
              (base + framed_size (firstn s ps))
  = inr (List.concat (map frame (firstn (e - s) (skipn s ps)))).
Proof.
  intros H Hse.
  pose proof (holds_base _ _ _ H) as Hbase.
  pose proof (holds_bytes _ _ _ H) as Hbytes.
  pose proof (framed_size_nonneg (firstn s ps)) as HA.
  set (mid := firstn (e - s) (skipn s ps)).
  assert (Hsplit : ps = firstn s ps ++ mid ++ skipn e ps)
    by (apply firstn_skipn_split; lia).
  destruct (framed_size_range ps s e Hse) as [Hmid Hpos]. fold mid in Hmid, Hpos.
  rewrite Hmid. unfold File.ReadAt.
  rewrite (holds_open _ _ _ H).
  destruct (_ <? 0) eqn:E0; [apply Z.ltb_lt in E0; lia |].
  destruct (framed_size mid =? 0) eqn:E1; [apply Z.eqb_eq in E1; lia |].
  assert (Hpiece :
    firstn (Z.to_nat (framed_size mid))
           (skipn (Z.to_nat (base + framed_size (firstn s ps)))
                  (File.contents (fileBlock.physicalFile b)))
    = List.concat (map frame mid)).
  { rewrite <- (concat_frames_length mid), nat_len.
    replace (Z.to_nat (base + framed_size (firstn s ps)))
      with (Z.to_nat base
            + List.length (List.concat (map frame (firstn s ps))))%nat
      by (rewrite <- (nat_len (List.concat _)), concat_frames_length; lia).
    eapply firstn_skipn_piece.
    rewrite Hbytes. rewrite Hsplit at 1.
    rewrite !concat_map_app. reflexivity. }
  destruct (_ <=? _) eqn:E2.
  - rewrite Hpiece. reflexivity.
  - exfalso. apply Z.leb_gt in E2.
    assert (Hl : List.length
                   (firstn (Z.to_nat (framed_size mid))
                      (skipn (Z.to_nat (base + framed_size (firstn s ps)))
                         (File.contents (fileBlock.physicalFile b))))
                 = Z.to_nat (framed_size mid)).
    { rewrite Hpiece. rewrite <- nat_len, concat_frames_length. reflexivity. }
    rewrite length_firstn, length_skipn in Hl. unfold len in E2. lia.
Qed.

Lemma holds_read_counter (c : Z) (b : fileBlock.t) (base : Z)
      (ps : list (list byte)) :
  holds b base ps ->
  holds (fileBlock.set_uncompletedReadRequestCount c b) base ps.
Proof. intros [H1 H2 H3 H4 H5 H6 H7 H8 H9 H10]. constructor; assumption. Qed.

Lemma firstn_min_length {A : Type} (k : nat) (l : list A) :
  firstn k l = firstn (Nat.min k (List.length l)) l.
Proof.
  destruct (Nat.le_ge_cases k (List.length l)) as [Hle | Hge].
  - rewrite Nat.min_l by exact Hle. reflexivity.
  - rewrite Nat.min_r by exact Hge.
    rewrite firstn_all, firstn_all2 by exact Hge. reflexivity.
Qed.

(** [Read] on a block that holds [ps]: for a start inside the block and a
    count of at least 1, the entries of the range, clamped to the end of the
    block, as far as the loop delivers them. *)
Theorem Read_holds (b : fileBlock.t) (base : Z) (ps : list (list byte))
        (start num : Z) :
  holds b base ps ->
  0 <= start < len ps ->
  1 <= num ->
  start + num < 2 ^ 31 ->
  fst (Read start num b)
  = Ret (map entry (delivered (range_of start num ps))).
Proof.
  intros H Hs Hn Hsum.
  unfold Read, with_pending_read, bind.
  set (b1 := fileBlock.set_uncompletedReadRequestCount _ b).
  assert (H1 : holds b1 base ps) by (apply holds_read_counter; exact H).
  rewrite (calculateRange_holds b1 base ps start num H1 Hs Hn Hsum).
  set (s := Z.to_nat start).
  set (e := Z.to_nat (Z.min (start + num) (len ps))).
  assert (Hse : (s < e <= List.length ps)%nat) by (unfold len in *; lia).
  pose proof (holds_end _ _ _ H) as Hend.
  pose proof (holds_base _ _ _ H) as Hbase.
  pose proof (framed_size_nonneg (firstn s ps)) as HA.
  pose proof (framed_size_firstn_le ps e) as HB.
  pose proof (ReadAt_holds b1 base ps s e H1 Hse) as Hread.
  assert (Hde : framed_size (firstn s ps) < framed_size (firstn e ps))
    by (destruct (framed_size_range ps s e Hse); lia).
  replace (base + framed_size (firstn e ps)
           - (base + framed_size (firstn s ps)))
    with (framed_size (firstn e ps) - framed_size (firstn s ps)) by lia.
  rewrite int64_fits by lia.
  destruct (_ <? 0) eqn:E0; [apply Z.ltb_lt in E0; lia |].
  unfold get, try, ret, fail.
  cbn [fileBlock.physicalFile] in *.
  fold b1. rewrite Hread.
  assert (Hrange : firstn (e - s) (skipn s ps) = range_of start num ps).
  { unfold range_of. fold s.
    rewrite (firstn_min_length (Z.to_nat num)). f_equal.
    rewrite length_skipn. unfold e, s, len in *. lia. }
  rewrite Hrange.
  rewrite deframe_frames.
  - reflexivity.
  - rewrite <- Hrange. pose proof (holds_small _ _ _ H) as Hsmall.
    rewrite <- (firstn_skipn s ps) in Hsmall.
    apply Forall_app in Hsmall. destruct Hsmall as [_ Hsmall].
    rewrite <- (firstn_skipn (e - s) (skipn s ps)) in Hsmall.
    apply Forall_app in Hsmall. tauto.
  - unfold deframe_fuel. lia.
Qed.

(** ** Appends keep the block consistent *)

Lemma packed_from_app (ps qs : list (list byte)) :
  forall off,
    packed_from off (ps ++ qs)
    = packed_from off ps ++ packed_from (off + framed_size ps) qs.
Proof.
  induction ps as [| p rest IH]; intros off; cbn [packed_from app framed_size].
  - rewrite Z.add_0_r. reflexivity.
  - rewrite IH. do 3 f_equal. lia.
Qed.

(** The records [Append] builds for frames are those of packed frames. *)
Lemma frame_indexes_packed (writeOffset : Z) (qs : list (list byte)) :
  Forall (fun p => len p < 2 ^ 31 - 4) qs ->
  forall length,
    0 <= writeOffset -> 0 <= length ->
    writeOffset + length + framed_size qs < 2 ^ 62 ->
    frame_indexes writeOffset length (map frame qs)
    = packed_from (writeOffset + length) qs.
Proof.
  induction 1 as [| q rest Hq Hrest IH]; intros length Hwo Hl Hend;
    [reflexivity |].
  cbn [map frame_indexes packed_from framed_size] in *.
  pose proof (len_nonneg q). pose proof (framed_size_nonneg rest).
  rewrite frame_length.
  rewrite (int64_fits length) by lia. rewrite int64_fits by lia.
  rewrite int32_fits by lia. rewrite int_fits by lia.
  rewrite IH by lia. do 2 f_equal. lia.
Qed.

(** Storing [p] at the end of a region of the file extends the region. *)
Lemma store_extends (c : list byte) (base T : nat) (F p : list byte) :
  firstn T (skipn base c) = F ->
  List.length F = T ->
  firstn (T + List.length p) (skipn base (File.store c (base + T) p)) = F ++ p.
Proof.
  intros HF HT. unfold File.store.
  destruct (Nat.le_gt_cases (base + T) (List.length c)) as [Hle | Hgt].
  - replace (base + T - List.length c)%nat with 0%nat by lia.
    cbn [repeat app].
    rewrite skipn_app, length_firstn, Nat.min_l by exact Hle.
    replace (base - (base + T))%nat with 0%nat by lia. cbn [skipn].
    rewrite <- firstn_skipn_comm, HF.
    rewrite firstn_app, HT.
    rewrite firstn_all2 by lia.
    replace (T + List.length p - T)%nat with (List.length p) by lia.
    rewrite firstn_app, firstn_all, Nat.sub_diag, firstn_O, app_nil_r.
    reflexivity.
  - assert (HT0 : T = 0%nat).
    { assert (Hmin : List.length (firstn T (skipn base c)) = T)
        by (rewrite HF; exact HT).
      rewrite length_firstn, length_skipn in Hmin. lia. }
    subst T. destruct F; [| discriminate]. cbn [app].
    rewrite Nat.add_0_r in *. cbn [List.length Nat.add].
    replace (firstn base c) with c by (symmetry; apply firstn_all2; lia).
    replace (skipn (base + List.length p) c) with (@nil byte)
      by (symmetry; apply skipn_all2; lia).
    rewrite app_nil_r.
    rewrite skipn_app.
    replace (skipn base c) with (@nil byte)
      by (symmetry; apply skipn_all2; lia).
    cbn [app].
    rewrite skipn_app, repeat_length, Nat.sub_diag. cbn [skipn].
    rewrite skipn_all2 by (rewrite repeat_length; lia).
    cbn [app]. apply firstn_all.
Qed.

Lemma holds_pending_done (b : fileBlock.t) (base : Z) (ps : list (list byte)) :
  holds b base ps -> holds (pending_done b) base ps.
Proof. intros [H1 H2 H3 H4 H5 H6 H7 H8 H9 H10]. constructor; assumption. Qed.

Lemma codec_Marshall_entries (qs : list (list byte)) :
  map codec_Marshall (map entry qs) = map inr (map frame qs).
Proof. induction qs as [| q rest IH]; cbn; [reflexivity | now rewrite IH]. Qed.

(** A successful [Append] of entries with payloads [qs] to a block that
    holds [ps] leaves a block that holds [ps ++ qs]. *)
Theorem Append_holds (b : fileBlock.t) (base : Z) (ps qs : list (list byte)) :
  holds b base ps ->
  Forall (fun p => len p < 2 ^ 31 - 4) qs ->
  len ps + len qs < 2 ^ 31 ->
  base + framed_size ps + framed_size qs < 2 ^ 62 ->
  fst (Append codec_Marshall None (map entry qs) b) = Ret tt ->
  holds (snd (Append codec_Marshall None (map entry qs) b)) base (ps ++ qs).
Proof.
  intros H Hsmall Hcount Hend Hok.
  destruct qs as [| q0 qs0] eqn:Eqs.
  { cbn [map]. rewrite Append_empty, app_nil_r. cbn [snd].
    apply holds_pending_done. exact H. }
  rewrite <- Eqs in *.
  assert (Hne : map entry qs <> []) by (rewrite Eqs; discriminate).
  clear Eqs q0 qs0.
  pose proof (holds_base _ _ _ H) as Hbase.
  pose proof (framed_size_nonneg ps) as Hps.
  pose proof (framed_size_nonneg qs) as Hqs.
  pose proof (len_nonneg ps) as Hlp.
  pose proof (len_nonneg qs) as Hlq.
  rewrite Append_nonempty in * by exact Hne.
  rewrite (marshal_entities_data _ _ _ _ (codec_Marshall_entries qs)) in *
    by (rewrite ?concat_frames_length; lia).
  cbn [app] in *. rewrite Z.add_0_l in *.
  destruct (_ >? _); [discriminate |].
  unfold File.Write in *. rewrite (holds_open _ _ _ H) in *.
  cbn [fst snd] in *. clear Hok.
  rewrite (holds_writeOffset _ _ _ H).
  rewrite frame_indexes_packed by (try assumption; lia).
  rewrite Z.add_0_r.
  assert (Hlen : len (packed_from (base + framed_size ps) qs) = len qs)
    by (unfold len; rewrite packed_from_length; reflexivity).
  unfold appended, pending_done.
  constructor; cbn.
  - reflexivity.
  - exact Hbase.
  - rewrite framed_size_app. lia.
  - apply Forall_app. split; [exact (holds_small _ _ _ H) | exact Hsmall].
  - rewrite len_app. lia.
  - rewrite Hlen, (holds_number _ _ _ H), len_app.
    rewrite (int32_fits (len qs)) by lia. apply int32_fits. lia.
  - rewrite (holds_writeOffset _ _ _ H), concat_frames_length, framed_size_app.
    rewrite (int64_fits (framed_size qs)) by lia.
    rewrite int64_fits by lia. lia.
  - rewrite (holds_cursor _ _ _ H), concat_frames_length, framed_size_app. lia.
  - rewrite (holds_indexes _ _ _ H), packed_from_app. reflexivity.
  - rewrite (holds_cursor _ _ _ H), framed_size_app, concat_map_app.
    replace (Z.to_nat (framed_size ps + framed_size qs))
      with (Z.to_nat (framed_size ps)
            + List.length (List.concat (map frame qs)))%nat
      by (rewrite <- (nat_len (List.concat _)), concat_frames_length; lia).
    replace (Z.to_nat (base + framed_size ps))
      with (Z.to_nat base + Z.to_nat (framed_size ps))%nat by lia.
    apply store_extends.
    + exact (holds_bytes _ _ _ H).
    + rewrite <- nat_len, concat_frames_length. reflexivity.
Qed.

Lemma fresh_block_holds (capacity : Z) : holds (fresh_block capacity) 1024 [].
Proof. constructor; cbn; try reflexivity; try lia. constructor. Qed.

(** ** Where the packing invariant does hold *)

Lemma firstn_packed_from (ps : list (list byte)) :
  forall (off : Z) (k : nat),
    firstn k (packed_from off ps) = packed_from off (firstn k ps).
Proof.
  induction ps as [| p rest IH]; intros off k.
  - destruct k; reflexivity.
  - destruct k as [| k]; [reflexivity |].
    cbn [packed_from firstn]. rewrite IH. reflexivity.
Qed.

Lemma total_length_packed_from (ps : list (list byte)) :
  forall off, total_length (packed_from off ps) = framed_size ps.
Proof.
  induction ps as [| p rest IH]; intros off; [reflexivity |].
  cbn [packed_from total_length fold_right framed_size blockIndex.length].
  fold (total_length (packed_from (off + (4 + len p)) rest)).
  rewrite IH. lia.
Qed.

(** A block that holds entries from the end of the header region on
    satisfies the packing invariant. *)
Theorem holds_packed (b : fileBlock.t) (ps : list (list byte)) :
  holds b fileSegmentBlockHeaderCapacity ps -> packed b.
Proof.
  intros H i bi Hi Hnth.
  rewrite (holds_indexes _ _ _ H) in *.
  rewrite (holds_number _ _ _ H) in Hi.
  destruct (nth_error ps i) as [p |] eqn:Ep.
  - rewrite (nth_error_packed_from _ _ _ _ Ep) in Hnth.
    injection Hnth as <-. cbn [blockIndex.startOffset].
    rewrite firstn_packed_from, total_length_packed_from. reflexivity.
  - apply nth_error_None in Ep. unfold len in Hi. lia.
Qed.

(** ** Reads of blocks whose payloads are not empty *)

Lemma delivered_nonempty (ps : list (list byte)) :
  Forall (fun p => p <> []) ps -> delivered ps = ps.
Proof.
  induction 1 as [| p rest Hp Hrest IH]; [reflexivity |].
  cbn [delivered]. destruct rest as [| q rest'].
  - destruct p; [congruence | reflexivity].
  - rewrite IH. reflexivity.
Qed.

Lemma Forall_range_of {P : list byte -> Prop} (start count : Z)
      (ps : list (list byte)) :
  Forall P ps -> Forall P (range_of start count ps).
Proof.
  intros H. unfold range_of.
  rewrite <- (firstn_skipn (Z.to_nat start) ps) in H.
  apply Forall_app in H. destruct H as [_ H].
  rewrite <- (firstn_skipn (Z.to_nat count) (skipn (Z.to_nat start) ps)) in H.
  apply Forall_app in H. tauto.
Qed.

Lemma range_of_length (start count : Z) (ps : list (list byte)) :
  0 <= start < len ps -> 0 <= count ->
  len (range_of start count ps) = Z.min count (len ps - start).
Proof.
  intros Hs Hc. unfold range_of, len in *.
  rewrite length_firstn, length_skipn. lia.
Qed.

Lemma Read_offset_exceeded (b : fileBlock.t) (start num : Z) :
  len (fileBlock.indexes b) <= start ->
  fst (Read start num b) = Fail ErrOffsetExceeded.
Proof.
  intros H. unfold Read, with_pending_read, bind.
  rewrite calculateRange_read_counter.
  unfold calculateRange at 1. unfold bind, get, fail.
  destruct (start >=? _) eqn:E; [reflexivity |].
  rewrite Z.geb_leb in E. apply Z.leb_gt in E. lia.
Qed.

(** X10. Range resolution on a block that holds entries with non-empty
    payloads (and with [start + count] below 2^31): [Read] returns
    [OffsetExceeded] exactly when the start is not below the number of
    entries, and
    otherwise the entries of the range, [min count (n - start)] of them. *)
Theorem Read_range_nonempty_payloads (b : fileBlock.t) (base : Z)
        (ps : list (list byte)) (start num : Z) :
  holds b base ps ->
  Forall (fun p => p <> []) ps ->
  0 <= start -> 1 <= num -> start + num < 2 ^ 31 ->
  (fst (Read start num b) = Fail ErrOffsetExceeded <-> len ps <= start)
  /\ (start < len ps ->
      fst (Read start num b) = Ret (map entry (range_of start num ps))
      /\ len (map entry (range_of start num ps))
         = Z.min num (len ps - start)).
Proof.
  intros H Hne Hs Hn Hsum.
  assert (Hlen : len (fileBlock.indexes b) = len ps).
  { rewrite (holds_indexes _ _ _ H). unfold len.
    rewrite packed_from_length. reflexivity. }
  assert (Hin : start < len ps ->
            fst (Read start num b) = Ret (map entry (range_of start num ps))).
  { intros Hlt. rewrite (Read_holds b base ps) by (try assumption; lia).
    rewrite delivered_nonempty by (apply Forall_range_of; exact Hne).
    reflexivity. }
  split.
  - split.
    + intros Hfail. destruct (Z.lt_ge_cases start (len ps)) as [Hlt | Hge];
        [| exact Hge].
      rewrite (Hin Hlt) in Hfail. discriminate.
    + intros Hge. apply Read_offset_exceeded. lia.
  - intros Hlt. split; [exact (Hin Hlt) |].
    unfold len at 1. rewrite length_map. fold (len (range_of start num ps)).
    apply range_of_length; lia.
Qed.

(** Scenario S3 holds its two entries; reading two from ordinal 1 gives the
    one that is there. *)
Lemma block_S3_holds : holds block_S3 1024 [abc; hello].
Proof.
  apply (Append_holds (fresh_block 4096) 1024 [] [abc; hello]).
  - apply fresh_block_holds.
  - repeat constructor.
  - reflexivity.
  - reflexivity.
  - reflexivity.
Defined.

Lemma Read_range_nonempty_payloads_witness :
  fst (Read 1 2 block_S3) = Ret [entry hello]
  /\ (fst (Read 2 1 block_S3) = Fail ErrOffsetExceeded).
Proof.
  destruct (Read_range_nonempty_payloads block_S3 1024 [abc; hello] 1 2
              block_S3_holds)
    as [_ Hin]; try lia; [repeat constructor; discriminate |].
  destruct (Read_range_nonempty_payloads block_S3 1024 [abc; hello] 2 1
              block_S3_holds)
    as [[_ Hout] _]; try lia; [repeat constructor; discriminate |].
  split.
  - apply Hin. reflexivity.
  - apply Hout. vm_compute. discriminate.
Defined.

(** ** What Append leaves behind, whatever the write did *)

(** X9. Once the capacity check has passed, the records of the batch are in
    [indexes] and [number] and [writeOffset] have been advanced when
    [Append] returns, also when it returns the error of the write. *)
Theorem Append_state_after_write Marshall w entities (b : fileBlock.t)
        buf length idxes :
  entities <> [] ->
  marshal_entities Marshall (fileBlock.writeOffset b) entities ([], 0, [])
  = inr (buf, length, idxes) ->
  (length >? remain b (int64 (int (length + int (12 * len idxes))))) = false ->
  let '(f, n, err) := File.Write (fileBlock.physicalFile b) w buf in
  let r := Append Marshall w entities b in
  fst r = match err with Some e => Fail e | None => Ret tt end
  /\ fileBlock.physicalFile (snd r) = f
  /\ fileBlock.indexes (snd r) = fileBlock.indexes b ++ idxes
  /\ fileBlock.number (snd r)
     = int32 (fileBlock.number b + int32 (len idxes))
  /\ fileBlock.writeOffset (snd r)
     = int64 (fileBlock.writeOffset b + int64 n)
  /\ fileBlock.length (snd r) = fileBlock.length b.
Proof.
  intros Hne Hm Hfit.
  rewrite Append_nonempty by exact Hne. rewrite Hm, Hfit.
  destruct (File.Write _ _ _) as [[f n] err]. cbn [fst snd].
  repeat split.
Qed.

Lemma Append_state_after_write_witness :
  let r := Append codec_Marshall (Some (File.mkFault 3 5)) [entry abc]
                  (fresh_block 4096) in
  fst r = Fail (ErrDevice 5)
  /\ index_pairs (snd r) = [(1024, 7)]
  /\ fileBlock.number (snd r) = 1
  /\ fileBlock.writeOffset (snd r) = 1027.
Proof.
  pose proof (Append_state_after_write codec_Marshall
                (Some (File.mkFault 3 5)) [entry abc] (fresh_block 4096)
                (frame abc) 7 [blockIndex.mk 1024 7]
                ltac:(discriminate) eq_refl eq_refl) as H.
  cbv zeta in H.
  change (File.Write (fileBlock.physicalFile (fresh_block 4096))
                     (Some (File.mkFault 3 5)) (frame abc))
    with (File.mk (File.store (File.contents (created_file 4096)) 1024
                              (firstn 3 (frame abc)))
                  1027 false, 3, Some (ErrDevice 5)) in H.
  cbv beta iota in H.
  destruct H as (H1 & _ & H3 & H4 & H5 & _).
  cbv zeta. unfold index_pairs. rewrite H1, H3, H4, H5.
  repeat split.
Defined.

(** ** The rebuild path of loadIndex *)

Lemma set_nth_app {A : Type} (done : list A) (x v : A) (r : list A) :
  set_nth (done ++ x :: r) (List.length done) v = done ++ v :: r.
Proof. induction done as [| d done IH]; cbn; [reflexivity | now rewrite IH]. Qed.

Lemma set_indexes_twice (x y : list blockIndex.t) (b : fileBlock.t) :
  fileBlock.set_indexes x (fileBlock.set_indexes y b)
  = fileBlock.set_indexes x b.
Proof. reflexivity. Qed.

(** The loop of the rebuild path over a region that holds the frames of
    [qs]: slot by slot, the offset of the frame and the value of its
    prefix. *)
Lemma rebuild_index_frames (qs : list (list byte)) :
  Forall (fun p => len p < 2 ^ 31 - 4) qs ->
  forall (off : Z) (b : fileBlock.t) (done : list blockIndex.t)
         (tail : list byte),
    File.closed (fileBlock.physicalFile b) = false ->
    0 <= off -> off + framed_size qs < 2 ^ 62 ->
    skipn (Z.to_nat off) (File.contents (fileBlock.physicalFile b))
    = List.concat (map frame qs) ++ tail ->
    fileBlock.indexes b
    = done ++ repeat blockIndex.zero (List.length qs) ->
    rebuild_index (List.length qs) (List.length done) off b
    = (Ret tt, fileBlock.set_indexes (done ++ rebuilt_from off qs) b).
Proof.
  induction 1 as [| q rest Hq Hrest IH];
    intros off b done tail Hopen Hoff Hend Hbytes Hidx.
  - cbn. rewrite app_nil_r. cbn in Hidx. rewrite app_nil_r in Hidx.
    rewrite <- Hidx. destruct b. reflexivity.
  - cbn [List.length rebuild_index framed_size] in *.
    pose proof (len_nonneg q) as Hq0.
    pose proof (framed_size_nonneg rest) as Hr0.
    unfold bind at 1. unfold get at 1. unfold bind at 1.
    assert (Hread : File.ReadAt (fileBlock.physicalFile b) 4 off
                    = inr (Binary.put 4 (len q))).
    { unfold File.ReadAt. rewrite Hopen.
      destruct (off <? 0) eqn:E0; [apply Z.ltb_lt in E0; lia |].
      cbn [Z.eqb].
      assert (Hl : (4 <= List.length
                          (skipn (Z.to_nat off)
                                 (File.contents (fileBlock.physicalFile b))))%nat).
      { rewrite Hbytes. cbn [map List.concat]. unfold frame at 1.
        rewrite !length_app, put_length. lia. }
      rewrite length_skipn in Hl.
      destruct (_ <=? _) eqn:E1; [| apply Z.leb_gt in E1; unfold len in E1; lia].
      rewrite Hbytes. cbn [map List.concat]. unfold frame at 1.
      rewrite <- !app_assoc.
      change (Z.to_nat 4) with 4%nat.
      rewrite <- (put_length 4 (len q)) at 1.
      rewrite firstn_app, firstn_all, Nat.sub_diag, firstn_O, app_nil_r.
      reflexivity. }
    rewrite Hread. unfold try at 1, ret at 1.
    unfold bind at 1.
    rewrite <- (app_nil_r (Binary.put 4 (len q))) at 1.
    rewrite binary_Read_put. unfold try at 1, ret at 1.
    rewrite get_put_4 by lia.
    unfold bind at 1, modify at 1.
    rewrite Hidx. cbn [fileBlock.indexes repeat].
    rewrite set_nth_app.
    rewrite (int64_fits (len q)) by lia.
    rewrite (int64_fits (4 + len q)) by lia.
    rewrite (int64_fits (off + (4 + len q))) by lia.
    replace (S (List.length done))
      with (List.length (done ++ [blockIndex.mk off (len q)]))
      by (rewrite length_app; cbn; lia).
    rewrite (IH (off + (4 + len q)) _
                (done ++ [blockIndex.mk off (len q)])
                tail).
    + rewrite set_indexes_twice, <- app_assoc. reflexivity.
    + exact Hopen.
    + lia.
    + lia.
    + cbn [fileBlock.physicalFile fileBlock.set_indexes].
      replace (Z.to_nat (off + (4 + len q)))
        with (List.length (frame q) + Z.to_nat off)%nat
        by (rewrite <- nat_len, frame_length; lia).
      rewrite <- skipn_skipn, Hbytes. cbn [map List.concat].
      rewrite <- app_assoc, skipn_app, skipn_all, Nat.sub_diag.
      reflexivity.
    + cbn [fileBlock.indexes fileBlock.set_indexes].
      rewrite <- app_assoc. reflexivity.
Qed.

(** X11. [loadIndex] on a block that is not full, over a payload region that
    holds the frames of [ps]: the rebuilt index. *)
Theorem loadIndex_rebuilds (b : fileBlock.t) (ps : list (list byte))
        (tail : list byte) :
  File.closed (fileBlock.physicalFile b) = false ->
  fileBlock.fullFlag b = false ->
  fileBlock.number b = len ps ->
  len ps < 2 ^ 31 ->
  Forall (fun p => len p < 2 ^ 31 - 4) ps ->
  fileSegmentBlockHeaderCapacity + framed_size ps < 2 ^ 62 ->
  skipn 1024 (File.contents (fileBlock.physicalFile b))
  = List.concat (map frame ps) ++ tail ->
  loadIndex b
  = (Ret tt, fileBlock.set_indexes (rebuilt_from 1024 ps) b).
Proof.
  intros Hopen Hfull Hnum Hcount Hsmall Hend Hbytes.
  pose proof (len_nonneg ps) as Hn0.
  unfold loadIndex, bind, get, make, modify, ret, panic.
  rewrite Hnum.
  destruct (len ps <? 0) eqn:E; [apply Z.ltb_lt in E; lia |].
  unfold IsFull. cbn [fileBlock.fullFlag fileBlock.set_indexes]. rewrite Hfull.
  rewrite (int_fits (len ps)) by lia. rewrite nat_len.
  rewrite (rebuild_index_frames ps Hsmall fileSegmentBlockHeaderCapacity _ []
             tail).
  - reflexivity.
  - exact Hopen.
  - unfold fileSegmentBlockHeaderCapacity. lia.
  - exact Hend.
  - exact Hbytes.
  - reflexivity.
Qed.

(** The rebuilt index and the index of the append path differ whenever
    there is an entry: the lengths of the first records are 4 apart. *)
Lemma rebuilt_from_not_packed (off : Z) (ps : list (list byte)) :
  ps <> [] -> rebuilt_from off ps <> packed_from off ps.
Proof.
  destruct ps as [| p rest]; [congruence |].
  intros _ H. cbn [rebuilt_from packed_from] in H.
  apply (f_equal (@hd blockIndex.t blockIndex.zero)) in H. cbn [hd] in H.
  apply (f_equal blockIndex.length) in H. cbn [blockIndex.length] in H. lia.
Qed.

(** ** The capacity check in machine arithmetic *)

(** With no assumption on the range of the fields: [Append] returns
    [ErrNoEnoughCapacity] exactly when the length of the serialised batch
    exceeds [remain], as the 32- and 64-bit arithmetic computes it, and then
    the block is as before, but for the counter of pending appends. *)
Theorem Append_capacity_check_remain Marshall w entities (b : fileBlock.t)
        buf length idxes :
  entities <> [] ->
  marshal_entities Marshall (fileBlock.writeOffset b) entities ([], 0, [])
  = inr (buf, length, idxes) ->
  (fst (Append Marshall w entities b) = Fail ErrNoEnoughCapacity
   <-> length > remain b (int64 (int (length + int (12 * len idxes)))))
  /\ (fst (Append Marshall w entities b) = Fail ErrNoEnoughCapacity ->
      snd (Append Marshall w entities b) = pending_done b).
Proof.
  intros Hne Hm. rewrite Append_nonempty by exact Hne. rewrite Hm.
  destruct (length >? _) eqn:Hgt.
  - cbn [fst snd]. split; [| reflexivity].
    split; [intros _; apply Z.gtb_gt; exact Hgt | reflexivity].
  - destruct (File.Write _ _ _) as [[f n] err] eqn:Hw. cbn [fst snd].
    assert (Hnot : (match err with Some e => Fail e | None => Ret tt end)
                   <> @Fail unit ErrNoEnoughCapacity).
    { destruct err as [e |]; [| discriminate].
      intros Heq. injection Heq as ->.
      exact (File_Write_error _ _ _ _ _ _ Hw eq_refl). }
    split; [split |]; intros H; try contradiction.
    apply Z.gtb_gt in H. congruence.
Qed.

(** ** Signed integers through the big-endian codec *)

Lemma wrap_mod (w z : Z) : 0 < w -> fits w z -> wrap w (z mod 2 ^ w) = z.
Proof.
  intros Hw [Hlo Hhi]. unfold wrap.
  assert (Hp : 2 ^ w = 2 * 2 ^ (w - 1)).
  { replace w with (1 + (w - 1)) at 1 by lia.
    rewrite Z.pow_add_r by lia. reflexivity. }
  rewrite Z.add_mod_idemp_l by lia.
  rewrite Z.mod_small; lia.
Qed.

Lemma int32_get_put (z : Z) :
  - 2 ^ 31 <= z < 2 ^ 31 -> int32 (Binary.get (Binary.put 4 z)) = z.
Proof.
  intros H. rewrite get_put. change (8 * Z.of_nat 4) with 32.
  apply wrap_mod; [lia | exact H].
Qed.

Lemma int64_get_put (z : Z) :
  - 2 ^ 63 <= z < 2 ^ 63 -> int64 (Binary.get (Binary.put 8 z)) = z.
Proof.
  intros H. rewrite get_put. change (8 * Z.of_nat 8) with 64.
  apply wrap_mod; [lia | exact H].
Qed.

(** [binary.Read] of a value of [S n] bytes from a reader that starts with
    its encoding. *)
Lemma binary_Read_put_any (n : nat) (z : Z) (tl : list byte) :
  Reader.binary_Read (S n) (Binary.put (S n) z ++ tl)
  = inr (Binary.get (Binary.put (S n) z), tl).
Proof.
  unfold Reader.binary_Read.
  destruct (Binary.put (S n) z ++ tl) as [| x r] eqn:E; [discriminate |].
  rewrite <- E.
  assert (Hlen : List.length (Binary.put (S n) z) = S n) by apply put_length.
  replace (S n <=? List.length (Binary.put (S n) z ++ tl))%nat with true
    by (symmetry; apply Nat.leb_le; rewrite length_app; lia).
  rewrite <- Hlen at 1 3.
  rewrite firstn_app, firstn_all, Nat.sub_diag, firstn_O, app_nil_r.
  rewrite skipn_app, skipn_all, Nat.sub_diag. reflexivity.
Qed.

(** ** Writing at an offset, then reading there *)

Lemma store_length (c : list byte) (off : nat) (p : list byte) :
  (off + List.length p <= List.length (File.store c off p))%nat.
Proof.
  unfold File.store.
  rewrite !length_app, length_firstn, repeat_length, length_skipn. lia.
Qed.

Lemma store_read (c : list byte) (off : nat) (p : list byte) :
  firstn (List.length p) (skipn off (File.store c off p)) = p.
Proof.
  unfold File.store.
  rewrite app_assoc.
  assert (Hpre : List.length (firstn off c ++ repeat x00 (off - List.length c))
                 = off).
  { rewrite length_app, length_firstn, repeat_length. lia. }
  rewrite skipn_app, Hpre, Nat.sub_diag.
  rewrite <- Hpre at 1. rewrite skipn_all. cbn [app skipn].
  rewrite firstn_app, firstn_all, Nat.sub_diag, firstn_O, app_nil_r.
  reflexivity.
Qed.

(** What [WriteAt] has stored at [off], [ReadAt] reads back from [off]. *)
Lemma ReadAt_WriteAt (f : File.t) (p : list byte) (off : Z) :
  File.closed f = false -> 0 <= off ->
  File.WriteAt f p off
  = (File.mk (File.store (File.contents f) (Z.to_nat off) p)
             (File.cursor f) false, None)
  /\ File.ReadAt (fst (File.WriteAt f p off)) (len p) off = inr p.
Proof.
  intros Hopen Hoff. unfold File.WriteAt. rewrite Hopen.
  destruct (off <? 0) eqn:E0; [apply Z.ltb_lt in E0; lia |].
  split; [reflexivity |]. cbn [fst]. unfold File.ReadAt.
  cbn [File.closed File.contents]. rewrite E0.
  destruct (len p =? 0) eqn:E1.
  - apply Z.eqb_eq in E1. destruct p; [reflexivity | discriminate].
  - pose proof (store_length (File.contents f) (Z.to_nat off) p) as Hl.
    destruct (_ <=? _) eqn:E2;
      [| apply Z.leb_gt in E2; unfold len in E2; lia].
    rewrite nat_len, store_read. reflexivity.
Qed.

(** ** The header, persisted and loaded again *)

Lemma fileBlock_eta (b : fileBlock.t) :
  fileBlock.set_number (fileBlock.number b)
    (fileBlock.set_length (fileBlock.length b)
       (fileBlock.set_capacity (fileBlock.capacity b)
          (fileBlock.set_version (fileBlock.version b) b))) = b.
Proof. destruct b. reflexivity. Qed.

(** What [persistHeader] does on an open file. *)
Lemma persistHeader_open (b : fileBlock.t) :
  File.closed (fileBlock.physicalFile b) = false ->
  persistHeader b
  = (Ret tt,
     fileBlock.set_physicalFile
       (File.mk
          (File.store (File.contents (fileBlock.physicalFile b)) 0
             (Binary.put 4 (fileBlock.version b)
              ++ Binary.put 8 (fileBlock.capacity b)
              ++ Binary.put 8 (fileBlock.length b)
              ++ Binary.put 4 (fileBlock.number b)))
          (File.cursor (fileBlock.physicalFile b)) false) b).
Proof.
  intros Hopen. unfold persistHeader, bind, get, modify, check, return_err, ret.
  destruct (ReadAt_WriteAt (fileBlock.physicalFile b)
              (Binary.put 4 (fileBlock.version b)
               ++ Binary.put 8 (fileBlock.capacity b)
               ++ Binary.put 8 (fileBlock.length b)
               ++ Binary.put 4 (fileBlock.number b)) 0 Hopen ltac:(lia))
    as [Hw _].
  rewrite Hw. reflexivity.
Qed.

(** X1. The header round trip. On an open file and with the four header
    fields within their types, [persistHeader] succeeds, and [loadHeader]
    then decodes the very same [version], [capacity], [length] and [number];
    the only field it changes is [writeOffset], which becomes
    [24 + length]. *)
Theorem persistHeader_loadHeader_round_trip (b : fileBlock.t) :
  File.closed (fileBlock.physicalFile b) = false ->
  - 2 ^ 31 <= fileBlock.version b < 2 ^ 31 ->
  - 2 ^ 63 <= fileBlock.capacity b < 2 ^ 63 ->
  - 2 ^ 63 <= fileBlock.length b < 2 ^ 63 ->
  - 2 ^ 31 <= fileBlock.number b < 2 ^ 31 ->
  fst (persistHeader b) = Ret tt
  /\ loadHeader (snd (persistHeader b))
     = (Ret tt,
        fileBlock.set_writeOffset (int64 (24 + fileBlock.length b))
          (snd (persistHeader b))).
Proof.
  intros Hopen Hv Hc Hl Hn.
  rewrite (persistHeader_open b Hopen). cbn [fst snd]. split; [reflexivity |].
  set (hd := Binary.put 4 (fileBlock.version b)
             ++ Binary.put 8 (fileBlock.capacity b)
             ++ Binary.put 8 (fileBlock.length b)
             ++ Binary.put 4 (fileBlock.number b)).
  assert (Hhd : List.length hd = 24%nat).
  { unfold hd. rewrite !length_app, !put_length. reflexivity. }
  unfold loadHeader, bind, get.
  cbn [fileBlock.physicalFile fileBlock.set_physicalFile].
  assert (Hread : File.ReadAt
                    (File.mk (File.store
                                (File.contents (fileBlock.physicalFile b)) 0 hd)
                             (File.cursor (fileBlock.physicalFile b)) false)
                    v1FileSegmentBlockHeaderLength 0 = inr hd).
  { pose proof (ReadAt_WriteAt (fileBlock.physicalFile b) hd 0 Hopen
                  ltac:(lia)) as [Hw Hr].
    rewrite Hw in Hr. cbn [fst] in Hr.
    replace (len hd) with 24 in Hr by (unfold len; rewrite Hhd; reflexivity).
    exact Hr. }
  rewrite Hread. unfold try, ret, modify. cbv beta iota. unfold hd.
  rewrite (binary_Read_put_any 3). cbv beta iota.
  rewrite (binary_Read_put_any 7). cbv beta iota.
  rewrite (binary_Read_put_any 7). cbv beta iota.
  rewrite <- (app_nil_r (Binary.put 4 (fileBlock.number b))).
  rewrite (binary_Read_put_any 3). cbv beta iota.
  rewrite !int32_get_put, !int64_get_put by assumption.
  cbn [fileBlock.length fileBlock.set_number fileBlock.set_length].
  destruct b. reflexivity.
Qed.

Lemma persistHeader_loadHeader_round_trip_witness :
  fst (persistHeader block_S3) = Ret tt
  /\ loadHeader (snd (persistHeader block_S3))
     = (Ret tt,
        fileBlock.set_writeOffset (int64 (24 + fileBlock.length block_S3))
          (snd (persistHeader block_S3))).
Proof.
  apply (persistHeader_loadHeader_round_trip block_S3);
    vm_compute; try reflexivity; split; (discriminate || reflexivity).
Defined.

(** ** The index region, persisted and loaded again *)

Lemma encoded_index_length (idx : list blockIndex.t) :
  len (flat_map (fun bi => Binary.put 8 (blockIndex.startOffset bi)
                             ++ Binary.put 4 (blockIndex.length bi)) idx)
  = 12 * len idx.
Proof.
  induction idx as [| bi rest IH]; [reflexivity |].
  cbn [flat_map]. rewrite !len_app, IH. unfold len.
  rewrite !put_length. cbn [List.length]. lia.
Qed.

(** The loop of the full-block path over the encoding of the records
    [rest]: slot by slot, the records themselves. *)
Lemma read_index_encoded (rest : list blockIndex.t) :
  Forall (fun bi => (- 2 ^ 63 <= blockIndex.startOffset bi < 2 ^ 63)
                    /\ (- 2 ^ 31 <= blockIndex.length bi < 2 ^ 31)) rest ->
  forall (b : fileBlock.t) (done : list blockIndex.t),
    fileBlock.indexes b
    = done ++ repeat blockIndex.zero (List.length rest) ->
    read_index (List.length rest) (List.length done)
      (flat_map (fun bi => Binary.put 8 (blockIndex.startOffset bi)
                             ++ Binary.put 4 (blockIndex.length bi)) rest) b
    = (Ret tt, fileBlock.set_indexes (done ++ rest) b).
Proof.
  induction 1 as [| bi rest [Hs Hl] Hrest IH]; intros b done Hidx.
  - cbn. cbn in Hidx. rewrite app_nil_r in *. rewrite <- Hidx.
    destruct b. reflexivity.
  - cbn [List.length read_index flat_map repeat] in *.
    unfold bind, try, ret, modify. rewrite <- app_assoc.
    rewrite (binary_Read_put_any 7). cbv beta iota.
    rewrite (binary_Read_put_any 3). cbv beta iota.
    rewrite int64_get_put, int32_get_put by assumption.
    rewrite Hidx. cbn [fileBlock.indexes fileBlock.set_indexes].
    rewrite !nth_middle, !set_nth_app.
    rewrite ?nth_middle, ?set_nth_app, set_indexes_twice.
    cbn [blockIndex.startOffset blockIndex.length].
    replace (S (List.length done)) with (List.length (done ++ [bi]))
      by (rewrite length_app; cbn; lia).
    specialize (IH (fileBlock.set_indexes
                      (done ++ bi :: repeat blockIndex.zero (List.length rest))
                      b)
                   (done ++ [bi])).
    destruct bi as [s l]. cbn [blockIndex.startOffset blockIndex.length] in *.
    rewrite IH.
    + rewrite set_indexes_twice, <- app_assoc. reflexivity.
    + cbn [fileBlock.indexes fileBlock.set_indexes].
      rewrite <- app_assoc. reflexivity.
Qed.

(** X2. The index round trip. On a full block with an open file, a
    non-negative write position, [number] equal to the number of records
    (12 times it within an [int32]) and every record within its types,
    [persistIndex] succeeds, and [loadIndex] on the block it leaves, through
    the full-block path, puts the very same records back: the block is
    unchanged. *)
Theorem persistIndex_loadIndex_round_trip (b : fileBlock.t) :
  File.closed (fileBlock.physicalFile b) = false ->
  fileBlock.fullFlag b = true ->
  0 <= fileBlock.writeOffset b ->
  fileBlock.number b = len (fileBlock.indexes b) ->
  12 * len (fileBlock.indexes b) < 2 ^ 31 ->
  Forall (fun bi => (- 2 ^ 63 <= blockIndex.startOffset bi < 2 ^ 63)
                    /\ (- 2 ^ 31 <= blockIndex.length bi < 2 ^ 31))
         (fileBlock.indexes b) ->
  fst (persistIndex b) = Ret tt
  /\ loadIndex (snd (persistIndex b)) = (Ret tt, snd (persistIndex b)).
Proof.
  intros Hopen Hfull Hwo Hnum Hsmall Hrec.
  pose proof (len_nonneg (fileBlock.indexes b)) as Hn0.
  set (buf := flat_map (fun bi => Binary.put 8 (blockIndex.startOffset bi)
                                    ++ Binary.put 4 (blockIndex.length bi))
                       (fileBlock.indexes b)).
  destruct (ReadAt_WriteAt (fileBlock.physicalFile b) buf
              (fileBlock.writeOffset b) Hopen Hwo) as [Hw Hr].
  assert (Hp : persistIndex b
               = (Ret tt,
                  fileBlock.set_physicalFile
                    (fst (File.WriteAt (fileBlock.physicalFile b) buf
                                       (fileBlock.writeOffset b))) b)).
  { unfold persistIndex, bind, get, modify, check, return_err, ret, IsFull.
    rewrite Hfull. cbn [negb]. fold buf. rewrite Hw. reflexivity. }
  rewrite Hp. cbn [fst snd]. split; [reflexivity |].
  unfold loadIndex, bind, get, make, modify, ret, panic, try, IsFull.
  cbn [fileBlock.number fileBlock.set_physicalFile fileBlock.fullFlag
       fileBlock.set_indexes fileBlock.physicalFile fileBlock.writeOffset].
  rewrite Hnum.
  destruct (len (fileBlock.indexes b) <? 0) eqn:E;
    [apply Z.ltb_lt in E; lia |].
  cbv beta iota.
  cbn [fileBlock.number fileBlock.set_physicalFile fileBlock.fullFlag
       fileBlock.set_indexes fileBlock.physicalFile fileBlock.writeOffset].
  rewrite Hfull. unfold v1IndexLength.
  rewrite (int32_fits (len (fileBlock.indexes b) * 12)) by lia.
  destruct (len (fileBlock.indexes b) * 12 <? 0) eqn:E1;
    [apply Z.ltb_lt in E1; lia |].
  cbv beta iota.
  replace (len (fileBlock.indexes b) * 12) with (len buf)
    by (unfold buf; rewrite encoded_index_length; lia).
  rewrite Hr. unfold ret. cbv beta iota. rewrite repeat_length, nat_len.
  pose proof (read_index_encoded (fileBlock.indexes b) Hrec) as Hloop.
  fold buf in Hloop.
  rewrite (Hloop _ []).
  - cbn [app]. destruct b. reflexivity.
  - cbn [fileBlock.indexes fileBlock.set_indexes app].
    rewrite ?nat_len. reflexivity.
Qed.

Lemma persistIndex_loadIndex_round_trip_witness :
  let b := fileBlock.set_fullFlag true block_S3 in
  fst (persistIndex b) = Ret tt
  /\ loadIndex (snd (persistIndex b)) = (Ret tt, snd (persistIndex b)).
Proof.
  apply (persistIndex_loadIndex_round_trip
           (fileBlock.set_fullFlag true block_S3)).
  - vm_compute. reflexivity.
  - vm_compute. reflexivity.
  - vm_compute. discriminate.
  - vm_compute. reflexivity.
  - vm_compute. reflexivity.
  - assert (E : fileBlock.indexes (fileBlock.set_fullFlag true block_S3)
               = [blockIndex.mk 1024 7; blockIndex.mk 1031 9])
      by (vm_compute; reflexivity).
    rewrite E. repeat constructor; cbn; lia.
Defined.

(** ** Appends and reads together *)

(** X3. Appends keep a block consistent. When the block holds the entries
    [ps] from offset [base] on and an [Append] of entries with payloads [qs]
    succeeds, the block afterwards holds [ps ++ qs]: the frames lie one
    after the other in the file, the index describes them, [number] counts
    them and [writeOffset] is at their end. If [base] is the end of the
    header region, the index satisfies the packing invariant. *)
Theorem Append_keeps_block_consistent (b : fileBlock.t) (base : Z)
        (ps qs : list (list byte)) :
  holds b base ps ->
  Forall (fun p => len p < 2 ^ 31 - 4) qs ->
  len ps + len qs < 2 ^ 31 ->
  base + framed_size ps + framed_size qs < 2 ^ 62 ->
  fst (Append codec_Marshall None (map entry qs) b) = Ret tt ->
  let b' := snd (Append codec_Marshall None (map entry qs) b) in
  holds b' base (ps ++ qs)
  /\ fileBlock.number b' = fileBlock.number b + len qs
  /\ fileBlock.writeOffset b' = fileBlock.writeOffset b + framed_size qs
  /\ (base = fileSegmentBlockHeaderCapacity -> packed b').
Proof.
  intros H Hsmall Hcount Hend Hok b'.
  pose proof (Append_holds b base ps qs H Hsmall Hcount Hend Hok) as H'.
  fold b' in H'. split; [exact H' |]. split; [| split].
  - rewrite (holds_number _ _ _ H'), (holds_number _ _ _ H), len_app.
    reflexivity.
  - rewrite (holds_writeOffset _ _ _ H'), (holds_writeOffset _ _ _ H),
      framed_size_app. lia.
  - intros ->. exact (holds_packed b' (ps ++ qs) H').
Qed.

Lemma Append_keeps_block_consistent_witness :
  holds block_S3 1024 [abc; hello]
  /\ fileBlock.number block_S3 = 2
  /\ fileBlock.writeOffset block_S3 = 1040
  /\ packed block_S3.
Proof.
  destruct (Append_keeps_block_consistent (fresh_block 4096) 1024 []
              [abc; hello] (fresh_block_holds 4096)
              ltac:(repeat constructor; vm_compute; reflexivity)
              ltac:(vm_compute; reflexivity)
              ltac:(vm_compute; reflexivity)
              ltac:(vm_compute; reflexivity))
    as (H1 & H2 & H3 & H4).
  split; [exact H1 |]. split; [exact H2 |]. split; [exact H3 |].
  apply H4. reflexivity.
Defined.

Lemma range_of_appended (ps qs : list (list byte)) :
  range_of (len ps) (len qs) (ps ++ qs) = qs.
Proof.
  unfold range_of. rewrite !nat_len.
  rewrite skipn_app, skipn_all, Nat.sub_diag. cbn [app skipn].
  apply firstn_all.
Qed.

(** X4. What is appended can be read back. After a successful [Append] of
    a non-empty batch of entries with non-empty payloads [qs] to a block that
    holds [ps], [Read(len ps, len qs)] returns exactly the appended
    entries. *)
Theorem Append_then_Read (b : fileBlock.t) (base : Z)
        (ps qs : list (list byte)) :
  holds b base ps ->
  qs <> [] ->
  Forall (fun p => p <> []) qs ->
  Forall (fun p => len p < 2 ^ 31 - 4) qs ->
  len ps + len qs < 2 ^ 31 ->
  base + framed_size ps + framed_size qs < 2 ^ 62 ->
  fst (Append codec_Marshall None (map entry qs) b) = Ret tt ->
  fst (Read (len ps) (len qs)
            (snd (Append codec_Marshall None (map entry qs) b)))
  = Ret (map entry qs).
Proof.
  intros H Hne Hfull Hsmall Hcount Hend Hok.
  pose proof (Append_holds b base ps qs H Hsmall Hcount Hend Hok) as H'.
  pose proof (len_nonneg ps) as Hp.
  assert (Hq : 1 <= len qs).
  { destruct qs; [congruence |]. unfold len. cbn [List.length]. lia. }
  rewrite (Read_holds _ base (ps ++ qs)); try assumption.
  - rewrite range_of_appended, delivered_nonempty by exact Hfull.
    reflexivity.
  - rewrite len_app. lia.
Qed.

Lemma Append_then_Read_witness :
  fst (Read 2 1 (snd (Append codec_Marshall None [entry abc] block_S3)))
  = Ret [entry abc].
Proof.
  apply (Append_then_Read block_S3 1024 [abc; hello] [abc] block_S3_holds).
  - discriminate.
  - repeat constructor; discriminate.
  - repeat constructor; vm_compute; reflexivity.
  - vm_compute. reflexivity.
  - vm_compute. reflexivity.
  - vm_compute. reflexivity.
Defined.

Lemma delivered_last_empty (pre : list (list byte)) :
  delivered (pre ++ [[]]) = pre.
Proof.
  induction pre as [| p rest IH]; [reflexivity |].
  cbn [app delivered]. rewrite IH.
  destruct (rest ++ [[]]) eqn:E; [| reflexivity].
  destruct rest; discriminate.
Qed.

(** X5. An empty payload at the end of the range is lost. On a block that
    holds [ps], when the last entry of the range of a [Read] has an empty
    payload, [Read] returns the entries before it and no error. *)
Theorem Read_drops_trailing_empty_payload (b : fileBlock.t) (base : Z)
        (ps pre : list (list byte)) (start num : Z) :
  holds b base ps ->
  0 <= start < len ps ->
  1 <= num ->
  start + num < 2 ^ 31 ->
  range_of start num ps = pre ++ [[]] ->
  fst (Read start num b) = Ret (map entry pre).
Proof.
  intros H Hs Hn Hsum Hrange.
  rewrite (Read_holds b base ps start num H Hs Hn Hsum).
  rewrite Hrange, delivered_last_empty. reflexivity.
Qed.

Lemma Read_drops_trailing_empty_payload_witness :
  fst (Read 0 3 (snd (Append codec_Marshall None [entry []] block_S3)))
  = Ret [entry abc; entry hello].
Proof.
  apply (Read_drops_trailing_empty_payload _ 1024 [abc; hello; []]
           [abc; hello]).
  - apply (Append_holds block_S3 1024 [abc; hello] [[]] block_S3_holds).
    + repeat constructor; vm_compute; reflexivity.
    + vm_compute. reflexivity.
    + vm_compute. reflexivity.
    + vm_compute. reflexivity.
  - vm_compute. split; [discriminate | reflexivity].
  - vm_compute. discriminate.
  - vm_compute. reflexivity.
  - vm_compute. reflexivity.
Defined.

(** ** Read leaves the block as it is *)

Lemma calculateRange_state (start num : Z) (b : fileBlock.t) :
  snd (calculateRange start num b) = b.
Proof.
  unfold calculateRange, bind, get, at_index, ret, fail, panic.
  repeat match goal with
         | |- context [if ?c then _ else _] => destruct c
         | |- context [match index ?l ?i with _ => _ end] =>
             destruct (index l i)
         end; reflexivity.
Qed.

(** X6. [Read] does not change the block: whatever it returns, and also
    when it panics, every field is afterwards what it was before (the
    counter of pending reads, within an [int32], has gone up and down
    again). *)
Theorem Read_leaves_block_unchanged (start num : Z) (b : fileBlock.t) :
  - 2 ^ 31 <= fileBlock.uncompletedReadRequestCount b < 2 ^ 31 - 1 ->
  snd (Read start num b) = b.
Proof.
  intros Hc. unfold Read, with_pending_read, bind.
  rewrite calculateRange_read_counter.
  pose proof (calculateRange_state start num b) as Hst.
  destruct (calculateRange start num b) as [r b']. cbn [fst snd] in *.
  subst b'.
  assert (Hdone :
    fileBlock.set_uncompletedReadRequestCount
      (int32 (fileBlock.uncompletedReadRequestCount
                (fileBlock.set_uncompletedReadRequestCount
                   (int32 (fileBlock.uncompletedReadRequestCount b + 1)) b)
              + -1))
      (fileBlock.set_uncompletedReadRequestCount
         (int32 (fileBlock.uncompletedReadRequestCount b + 1)) b) = b).
  { cbn [fileBlock.uncompletedReadRequestCount
         fileBlock.set_uncompletedReadRequestCount].
    rewrite (int32_fits (_ + 1)) by lia. rewrite int32_fits by lia.
    replace (fileBlock.uncompletedReadRequestCount b + 1 + -1)
      with (fileBlock.uncompletedReadRequestCount b) by lia.
    destruct b. reflexivity. }
  destruct r as [[from to] | e | p]; cbn [snd]; try exact Hdone.
  unfold get, try, ret, fail, panic.
  destruct (int64 (to - from) <? 0); cbn [snd]; [exact Hdone |].
  destruct (File.ReadAt _ _ _) as [e | data]; cbn [snd]; [exact Hdone |].
  destruct (deframe _ _ _) as [[p | [ses err]] |]; cbn [snd];
    try exact Hdone.
  destruct err; exact Hdone.
Qed.

Lemma Read_leaves_block_unchanged_witness :
  snd (Read 0 2 block_S3) = block_S3 /\ snd (Read 0 0 block_S3) = block_S3.
Proof.
  split; apply Read_leaves_block_unchanged; vm_compute;
    split; (discriminate || reflexivity).
Defined.

(** ** Append when an entry does not serialise *)

Lemma marshal_entities_error Marshall writeOffset pre e post err :
  forall (data : list (list byte)),
    map Marshall pre = map inr data ->
    Marshall e = inl err ->
    forall st,
      marshal_entities Marshall writeOffset (pre ++ e :: post) st = inl err.
Proof.
  induction pre as [| x pre IH]; intros [| d data] Hmap He st;
    try discriminate.
  - cbn. destruct st as [[buf length] idxes]. rewrite He. reflexivity.
  - cbn in Hmap. injection Hmap as Hx Hrest.
    cbn [app marshal_entities]. destruct st as [[buf length] idxes].
    rewrite Hx. apply (IH data Hrest He).
Qed.

Lemma pending_done_id (b : fileBlock.t) :
  - 2 ^ 31 <= fileBlock.uncompletedAppendRequestCount b < 2 ^ 31 - 1 ->
  pending_done b = b.
Proof.
  intros Hc. unfold pending_done.
  rewrite (int32_fits (_ + 1)) by lia. rewrite int32_fits by lia.
  replace (fileBlock.uncompletedAppendRequestCount b + 1 + -1)
    with (fileBlock.uncompletedAppendRequestCount b) by lia.
  destruct b. reflexivity.
Qed.

(** X7. A batch of which one entry does not serialise is refused as a
    whole. [Append] returns the error of the first entry that [Marshall]
    rejects, and the block is as before: nothing is written and no record
    is added, also for the entries in front of it, which did serialise. *)
Theorem Append_codec_error_changes_nothing
        Marshall w pre e post data err (b : fileBlock.t) :
  map Marshall pre = map inr data ->
  Marshall e = inl err ->
  - 2 ^ 31 <= fileBlock.uncompletedAppendRequestCount b < 2 ^ 31 - 1 ->
  Append Marshall w (pre ++ e :: post) b = (Fail err, b).
Proof.
  intros Hmap He Hc.
  rewrite Append_nonempty by (destruct pre; discriminate).
  rewrite (marshal_entities_error _ _ _ _ _ _ data Hmap He).
  rewrite pending_done_id by exact Hc. reflexivity.
Qed.

Lemma Append_codec_error_changes_nothing_witness :
  Append (fun e => if StoredEntry.Length e <? 0
                   then inl (ErrCodec 1) else codec_Marshall e)
         None [entry abc; StoredEntry.mk (-1) hello; entry abc]
         (fresh_block 4096)
  = (Fail (ErrCodec 1), fresh_block 4096).
Proof.
  apply (Append_codec_error_changes_nothing _ None [entry abc]
           (StoredEntry.mk (-1) hello) [entry abc] [frame abc]).
  - reflexivity.
  - reflexivity.
  - vm_compute. split; (discriminate || reflexivity).
Defined.

(** ** What an append costs in capacity *)

Lemma marshal_entities_idxes_length Marshall writeOffset entities :
  forall buf length idxes buf' length' idxes',
    marshal_entities Marshall writeOffset entities (buf, length, idxes)
    = inr (buf', length', idxes') ->
    len idxes' = len idxes + len entities.
Proof.
  induction entities as [| e rest IH];
    intros buf length idxes buf' length' idxes' H.
  - cbn in H. injection H as _ _ <-. unfold len. cbn [List.length]. lia.
  - cbn [marshal_entities] in H.
    destruct (Marshall e) as [err | d]; [discriminate |].
    apply IH in H. rewrite H, len_app. unfold len. cbn [List.length]. lia.
Qed.

(** X8. An append is charged for its index records only. After a
    successful [Append] of [n] entries, [remain] is smaller by [12 * n],
    whatever the number of payload bytes written: [length], which [remain]
    subtracts, is not advanced. (The fields are in the range in which the
    arithmetic of [remain] is exact.) *)
Theorem Append_charges_index_only Marshall w entities (b : fileBlock.t)
        (size : Z) :
  fst (Append Marshall w entities b) = Ret tt ->
  0 <= fileBlock.number b ->
  fileBlock.number b + len entities <= 178956970 ->
  0 <= fileBlock.length b < 2 ^ 61 ->
  0 <= fileBlock.capacity b < 2 ^ 61 ->
  0 <= size < 2 ^ 61 ->
  remain (snd (Append Marshall w entities b)) size
  = remain b size - 12 * len entities.
Proof.
  intros Hok Hn Hmax Hl Hc Hs.
  pose proof (len_nonneg entities) as Hlen.
  destruct entities as [| e0 rest] eqn:Ee.
  { rewrite Append_empty. cbn [snd]. unfold remain, pending_done.
    cbn [fileBlock.capacity fileBlock.length fileBlock.number
         fileBlock.set_uncompletedAppendRequestCount].
    unfold len. cbn [List.length]. lia. }
  rewrite <- Ee in *.
  assert (Hne : entities <> []) by (rewrite Ee; discriminate).
  clear Ee e0 rest.
  rewrite Append_nonempty in * by exact Hne.
  destruct (marshal_entities _ _ _ _) as [err | [[buf length] idxes]] eqn:Hm;
    [discriminate |].
  destruct (_ >? _); [discriminate |].
  destruct (File.Write _ _ _) as [[f k] err]. cbn [fst snd] in *.
  apply marshal_entities_idxes_length in Hm.
  change (len (@nil blockIndex.t)) with 0 in Hm. rewrite Z.add_0_l in Hm.
  rewrite (remain_exact b) by lia.
  rewrite remain_exact.
  - unfold appended, pending_done.
    cbn [fileBlock.capacity fileBlock.length fileBlock.number
         fileBlock.set_uncompletedAppendRequestCount
         fileBlock.set_writeOffset fileBlock.set_number
         fileBlock.set_indexes fileBlock.set_physicalFile].
    rewrite Hm. rewrite (int32_fits (len entities)) by lia.
    rewrite int32_fits by lia. lia.
  - unfold appended, pending_done.
    cbn [fileBlock.number fileBlock.set_uncompletedAppendRequestCount
         fileBlock.set_writeOffset fileBlock.set_number].
    rewrite Hm. rewrite (int32_fits (len entities)) by lia.
    rewrite int32_fits by lia. lia.
  - exact Hl.
  - exact Hc.
  - exact Hs.
Qed.

Lemma Append_charges_index_only_witness :
  remain (snd (Append codec_Marshall None [entry hello] block_S3)) 0
  = remain block_S3 0 - 12 * 1.
Proof.
  apply (Append_charges_index_only codec_Marshall None [entry hello]
           block_S3 0);
    vm_compute; try reflexivity; try discriminate;
    split; (discriminate || reflexivity).
Defined.

(** The rebuild path on the block of scenario S3: the index of the append
    path is replaced by the rebuilt one. *)
Lemma loadIndex_rebuilds_witness :
  loadIndex block_S3
  = (Ret tt, fileBlock.set_indexes (rebuilt_from 1024 [abc; hello]) block_S3).
Proof.
  apply (loadIndex_rebuilds block_S3 [abc; hello]
           (skipn 1040 (File.contents (fileBlock.physicalFile block_S3)))).
  - vm_compute. reflexivity.
  - vm_compute. reflexivity.
  - vm_compute. reflexivity.
  - vm_compute. reflexivity.
  - repeat constructor; vm_compute; reflexivity.
  - vm_compute. reflexivity.
  - vm_compute. reflexivity.
Defined.

(** ** Initialize on files that are not block files *)

(** X12. A file that cannot yield a header. When the file is closed, or
    shorter than the 24 bytes of the header fields, [Initialize] returns the
    error of the read ([os.ErrClosed], [io.EOF]) and leaves every field of
    the block as it was. *)
Theorem Initialize_unreadable_header (b : fileBlock.t) :
  File.closed (fileBlock.physicalFile b) = true
  \/ len (File.contents (fileBlock.physicalFile b)) < 24 ->
  Initialize b
  = (Fail (if File.closed (fileBlock.physicalFile b) then ErrClosed else EOF),
     b).
Proof.
  intros H.
  unfold Initialize, loadHeader, bind, get, try, fail, File.ReadAt,
    v1FileSegmentBlockHeaderLength.
  destruct (File.closed (fileBlock.physicalFile b)); [reflexivity |].
  destruct H as [H | H]; [discriminate |].
  cbn [Z.ltb Z.eqb Z.add Z.compare].
  destruct (_ <=? _) eqn:E; [apply Z.leb_le in E; lia | reflexivity].
Qed.

Lemma Initialize_unreadable_header_witness :
  Initialize (block_on (File.mk [x00; x00; x00; x01] 0 false) 0 false)
  = (Fail EOF, block_on (File.mk [x00; x00; x00; x01] 0 false) 0 false).
Proof.
  apply (Initialize_unreadable_header
           (block_on (File.mk [x00; x00; x00; x01] 0 false) 0 false)).
  right. vm_compute. reflexivity.
Defined.

(** X13. The header is not validated: when the entry count that
    [loadHeader] decodes is negative, [Initialize] does not return an error
    but panics, in [make([]blockIndex, b.number)], with the header fields
    already stored in the block. *)
Theorem Initialize_negative_number_panics (b : fileBlock.t) :
  fst (loadHeader b) = Ret tt ->
  fileBlock.number (snd (loadHeader b)) < 0 ->
  Initialize b
  = (Abort (MakeSliceLen (fileBlock.number (snd (loadHeader b)))),
     snd (loadHeader b)).
Proof.
  intros Hok Hneg. unfold Initialize. unfold bind at 1 2.
  destruct (loadHeader b) as [r b1]. cbn [fst snd] in *. subst r.
  unfold loadIndex, bind, get, make, panic.
  destruct (fileBlock.number b1 <? 0) eqn:E; [reflexivity |].
  apply Z.ltb_ge in E. lia.
Qed.

Lemma Initialize_negative_number_panics_witness :
  fst (Initialize
         (block_on (File.mk (Binary.put 4 1 ++ Binary.put 8 4096
                               ++ Binary.put 8 0 ++ Binary.put 4 (-1))
                            1024 false) 0 false))
  = Abort (MakeSliceLen (-1)).
Proof.
  rewrite (Initialize_negative_number_panics
             (block_on (File.mk (Binary.put 4 1 ++ Binary.put 8 4096
                                   ++ Binary.put 8 0 ++ Binary.put 4 (-1))
                                1024 false) 0 false)).
  - vm_compute. reflexivity.
  - vm_compute. reflexivity.
  - vm_compute. reflexivity.
Defined.

(** ** What CloseWrite changes *)

Lemma persistHeader_file_only (b b1 : fileBlock.t) r :
  persistHeader b = (r, b1) ->
  b1 = fileBlock.set_physicalFile (fileBlock.physicalFile b1) b.
Proof.
  unfold persistHeader, bind, get, modify, check, return_err, ret, fail.
  destruct (File.WriteAt _ _ _) as [f [e |]];
    intros H; injection H as <- <-; reflexivity.
Qed.

Lemma persistIndex_file_only (b b1 : fileBlock.t) r :
  persistIndex b = (r, b1) ->
  b1 = fileBlock.set_physicalFile (fileBlock.physicalFile b1) b.
Proof.
  unfold persistIndex, bind, get, modify, check, return_err, ret, fail.
  destruct (negb (IsFull b)).
  - intros H; injection H as <- <-. destruct b. reflexivity.
  - destruct (File.WriteAt _ _ _) as [f [e |]];
      intros H; injection H as <- <-; reflexivity.
Qed.

(** X14. [CloseWrite] touches the flag [appendable] and the file, nothing
    else: when it has returned, [indexes], [number], [length],
    [writeOffset], [readable] and [fullFlag] are what they were. As
    [IsReadable] looks at [appendable], the sealed block reports that it is
    not readable, whatever [readable] is. *)
Theorem CloseWrite_changes_flag_and_file_only (b b1 : fileBlock.t) :
  CloseWrite b = (Ret tt, b1) ->
  b1 = fileBlock.set_physicalFile (fileBlock.physicalFile b1)
         (fileBlock.set_appendable false b)
  /\ IsReadable b1 = false.
Proof.
  intros H. pose proof (CloseWrite_appendable b b1 H) as Hflag.
  split; [| unfold IsReadable; rewrite Hflag; reflexivity].
  revert H. unfold CloseWrite, wait_appends, bind, get, modify, ret, panic.
  destruct (_ =? 0); [| discriminate].
  destruct (persistHeader _) as [[[] | e | p] b2] eqn:Hh; try discriminate.
  intros Hi.
  apply persistHeader_file_only in Hh. apply persistIndex_file_only in Hi.
  clear Hflag.
  set (f1 := fileBlock.physicalFile b1) in *.
  set (f2 := fileBlock.physicalFile b2) in *.
  clearbody f1 f2. subst b1 b2. reflexivity.
Qed.

Lemma CloseWrite_changes_flag_and_file_only_witness :
  sealed_S3
  = fileBlock.set_physicalFile (fileBlock.physicalFile sealed_S3)
      (fileBlock.set_appendable false (fileBlock.set_fullFlag true block_S3))
  /\ IsReadable sealed_S3 = false.
Proof.
  apply (CloseWrite_changes_flag_and_file_only
           (fileBlock.set_fullFlag true block_S3) sealed_S3).
  vm_compute. reflexivity.
Defined.

Lemma store_at_0 (c p : list byte) :
  File.store c 0 p = p ++ skipn (List.length p) c.
Proof. reflexivity. Qed.

(** X15. Sealing a block that is not marked full persists the header and
    no index. [CloseWrite] then rewrites the first 24 bytes of the file with
    the four header fields and leaves every byte after them as it was: when
    the file is opened again the index can only come from the rebuild
    path. *)
Theorem CloseWrite_not_full_writes_header_only (b : fileBlock.t) :
  fileBlock.fullFlag b = false ->
  fileBlock.uncompletedAppendRequestCount b = 0 ->
  File.closed (fileBlock.physicalFile b) = false ->
  let r := CloseWrite b in
  let c := File.contents (fileBlock.physicalFile b) in
  let c' := File.contents (fileBlock.physicalFile (snd r)) in
  fst r = Ret tt
  /\ firstn 24 c'
     = Binary.put 4 (fileBlock.version b)
       ++ Binary.put 8 (fileBlock.capacity b)
       ++ Binary.put 8 (fileBlock.length b)
       ++ Binary.put 4 (fileBlock.number b)
  /\ skipn 24 c' = skipn 24 c.
Proof.
  intros Hfull Hcount Hopen. cbv zeta.
  unfold CloseWrite, wait_appends, bind, get, modify, ret, panic.
  cbn [fileBlock.uncompletedAppendRequestCount fileBlock.set_appendable].
  rewrite Hcount. cbn [Z.eqb].
  rewrite persistHeader_open by exact Hopen.
  unfold persistIndex, bind, get, ret, IsFull.
  cbn [fileBlock.fullFlag fileBlock.set_physicalFile
       fileBlock.set_appendable fileBlock.physicalFile File.contents
       fileBlock.version fileBlock.capacity fileBlock.length
       fileBlock.number fst snd].
  rewrite Hfull. cbn [negb fst snd fileBlock.physicalFile File.contents].
  set (hd := Binary.put 4 (fileBlock.version b)
             ++ Binary.put 8 (fileBlock.capacity b)
             ++ Binary.put 8 (fileBlock.length b)
             ++ Binary.put 4 (fileBlock.number b)).
  assert (Hhd : List.length hd = 24%nat).
  { unfold hd. rewrite !length_app, !put_length. reflexivity. }
  rewrite store_at_0.
  rewrite Hhd.
  cbn [fileBlock.physicalFile fileBlock.set_physicalFile File.contents].
  split; [reflexivity |]. split.
  - rewrite <- Hhd at 1.
    rewrite firstn_app, firstn_all, Nat.sub_diag, firstn_O, app_nil_r.
    reflexivity.
  - rewrite <- Hhd at 1.
    rewrite skipn_app, skipn_all, Nat.sub_diag. reflexivity.
Qed.

Lemma CloseWrite_not_full_writes_header_only_witness :
  fst (CloseWrite block_S3) = Ret tt
  /\ skipn 24 (File.contents (fileBlock.physicalFile (snd (CloseWrite block_S3))))
     = skipn 24 (File.contents (fileBlock.physicalFile block_S3)).
Proof.
  destruct (CloseWrite_not_full_writes_header_only block_S3)
    as (H1 & _ & H3).
  - vm_compute. reflexivity.
  - vm_compute. reflexivity.
  - vm_compute. reflexivity.
  - split; [exact H1 | exact H3].
Defined.

(** ** After the file has been closed *)




(** X17. [CloseRead] after [Close]. When [Close] has closed the file,
    [CloseRead] returns [os.ErrClosed] at once: it neither clears
    [readable] nor waits for the pending reads, and the block is as [Close]
    left it. *)
Theorem Close_then_CloseRead (b b1 : fileBlock.t) :
  Close b = (Ret tt, b1) ->
  CloseRead b1 = (Fail ErrClosed, b1)
  /\ fileBlock.readable b1 = fileBlock.readable b.
Proof.
  unfold Close, CloseRead, file_Close, bind, get, modify, check, return_err,
    ret, fail, File.Close.
  destruct (File.closed (fileBlock.physicalFile b)) eqn:Hc; [discriminate |].
  intros H. injection H as <-.
  cbn [fileBlock.physicalFile fileBlock.set_physicalFile File.closed
       fileBlock.readable].
  split; reflexivity.
Qed.

Lemma Close_then_CloseRead_witness :
  CloseRead (snd (Close block_S3)) = (Fail ErrClosed, snd (Close block_S3))
  /\ fileBlock.readable (snd (Close block_S3)) = fileBlock.readable block_S3.
Proof.
  apply (Close_then_CloseRead block_S3 (snd (Close block_S3))).
  vm_compute. reflexivity.
Defined.
